(** * Debug-Me: retry / fallback executors and the tracked-promise registry

    A shallow embedding of

    - [retryOperation] and [withFallback] from [src/errors/try-catch.js]
      (both are closures of [errorRecovery]), with the operations
      [errorRecovery] passes to them, and [logError] with
      [displayErrorStats], and
    - [createTrackedPromise] with the [AsyncDebugging] constructor,
      [monitorPendingOperations] and the closure [increment] of
      [raceConditionsDebugging] from [src/async/promises.js],

    followed by the properties the specification states about them and by
    further properties of the code.

    JavaScript numbers that count attempts or milliseconds are integers
    here ([Z]).  For the executors, which [await] one promise at a time, a
    promise is represented by the value it settles with, and an [async]
    function is a computation over the caller's world that also emits the
    observable events (invocations, timer waits, console lines) in the
    order in which they happen.  A promise can be rejected with any value:
    the executors read [.message] of what they catch, which throws on
    [undefined] and [null].  The tracker attaches handlers and returns at
    once, so it is run inside a small event loop with promise jobs and
    timers. *)

From Stdlib Require Import Sorted.
From stdpp Require Import strings pretty gmap.

Open Scope string_scope.
Open Scope list_scope.
Open Scope Z_scope.

(** ** Values shared by both modules *)

(** A JavaScript [Error] object, by its message: [new Error(message)]. *)
Record Error := new_Error { message : string }.

(** The two values that have no properties: reading [.message] of either
    throws a [TypeError]. *)
Inductive Nullish := undefined | null.

(** Any other value, as far as the executors can tell values apart: they read
    nothing but [.message], which is a string where a value has one. *)
Inductive Value :=
| without_message (text : string)   (* a string, a number, an object that has no [message] *)
| error_object (e : Error)          (* an object whose [message] is a string, as [new Error(m)] *)
| type_error (v : Nullish).         (* the [TypeError] thrown by reading a property of [v] *)

(** What a [throw] statement can throw and a promise can be rejected with. *)
Inductive Thrown :=
| thrown_nullish (v : Nullish)
| thrown (x : Value).

Definition show_nullish (v : Nullish) : string :=
  match v with undefined => "undefined" | null => "null" end.

(** [x.message] on a value that has properties; [None] is [undefined].  The
    message of the [TypeError] is the one V8 gives it. *)
Definition message_of (x : Value) : option string :=
  match x with
  | without_message _ => None
  | error_object e => Some (message e)
  | type_error v =>
      Some ("Cannot read properties of " +:+ show_nullish v +:+ " (reading 'message')")
  end.

(** [error.message] on whatever was caught: the exception it throws, or the
    value it yields. *)
Definition read_message (error : Thrown) : Thrown + option string :=
  match error with
  | thrown_nullish v => inl (thrown (type_error v))
  | thrown x => inr (message_of x)
  end.

(** A template literal and the console print [undefined] as this text. *)
Definition text_of (m : option string) : string := default "undefined" m.

(** [new Error(m)], thrown. *)
Definition thrown_Error (m : string) : Thrown := thrown (error_object (new_Error m)).

(** What a promise settles with. *)
Inductive Settlement (T E : Type) :=
| Fulfilled (value : T)
| Rejected (reason : E).
Arguments Fulfilled {T E} value.
Arguments Rejected {T E} reason.

Definition is_fulfilled {T E} (s : Settlement T E) : bool :=
  match s with Fulfilled _ => true | Rejected _ => false end.

Definition is_rejected {T E} (s : Settlement T E) : bool :=
  match s with Fulfilled _ => false | Rejected _ => true end.

(** Template literals print numbers in decimal. *)
Definition show (n : Z) : string := pretty n.

Module TryCatch.

(** ** Observable events of an executor run *)

Inductive Callee := TheOperation | PrimaryOperation | FallbackOperation.

Inductive Level := Log | Warn | Err.

Inductive Event (T : Type) :=
| Invoke (who : Callee)
| Settled (who : Callee) (s : Settlement T Thrown)
| Timeout (ms : Z)
| Console (level : Level) (args : list string).
Arguments Invoke {T} who.
Arguments Settled {T} who s.
Arguments Timeout {T} ms.
Arguments Console {T} level args.

Section Executors.

Context {T W : Type}.

(** A deferred operation: a zero-argument callable.  Calling it may change
    the caller's world [W] (a counter, a random source, ...) and yields a
    promise, given by its settlement.  A synchronous [throw] inside the
    [try] block reaches the same [catch] as a rejection, so both are
    [Rejected]. *)
Definition Operation := W → Settlement T Thrown * W.

(** Computations of an [async] function body: they thread the world and
    list the events they emit, oldest first. *)
Definition Exec (A : Type) : Type := W → A * W * list (Event T).

Definition ret {A} (a : A) : Exec A := λ w, (a, w, []).

Definition bind {A B} (m : Exec A) (k : A → Exec B) : Exec B :=
  λ w, let '(a, w1, t1) := m w in
       let '(b, w2, t2) := k a w1 in
       (b, w2, t1 ++ t2).

Definition emit (e : Event T) : Exec unit := λ w, (tt, w, [e]).

(** [await op()] inside [try]: call, suspend, resume with the settlement. *)
Definition await_call (who : Callee) (op : Operation) : Exec (Settlement T Thrown) :=
  λ w, let '(s, w') := op w in (s, w', [Invoke who; Settled who s]).

(** [await new Promise((resolve) => setTimeout(resolve, ms))] *)
Definition await_timeout (ms : Z) : Exec unit := emit (Timeout ms).

Definition console_log (args : list string) : Exec unit := emit (Console Log args).
Definition console_warn (args : list string) : Exec unit := emit (Console Warn args).
Definition console_error (args : list string) : Exec unit := emit (Console Err args).

End Executors.

#[global] Instance Exec_ret {T W} : MRet (@Exec T W) := @ret T W.
#[global] Instance Exec_bind {T W} : MBind (@Exec T W) := λ A B k m, bind m k.

Section Retry.

Context {T W : Type}.

(** The [while] loop of [retryOperation].  [fuel] bounds the number of loop
    tests; [None] means the bound was hit before the loop finished.  The
    result [Fulfilled None] is the [undefined] an [async] function resolves
    with when the loop is left without [return].  The [catch] block reads
    [error.message] while it builds the arguments of [console.error]: when
    that throws, nothing is printed and the exception leaves the function. *)
Fixpoint retry_loop (operation : @Operation T W) (maxRetries : Z)
    (fuel : nat) (attempt : Z) : @Exec T W (option (Settlement (option T) Thrown)) :=
  match fuel with
  | O => ret None
  | S fuel' =>
    if bool_decide (attempt < maxRetries) then
      console_log ["Attempt " +:+ show (attempt + 1) +:+ "/" +:+ show maxRetries] ;;
      r ← await_call TheOperation operation ;
      match r with
      | Fulfilled result =>
          console_log ["✓ Operation succeeded"] ;;
          ret (Some (Fulfilled (Some result)))
      | Rejected error =>
          let attempt := attempt + 1 in
          match read_message error with
          | inl exception => ret (Some (Rejected exception))
          | inr error_message =>
              console_error ["❌ Attempt " +:+ show attempt +:+ " failed:";
                             text_of error_message] ;;
              if bool_decide (attempt >= maxRetries) then
                console_error ["💥 All retry attempts exhausted"] ;;
                ret (Some (Rejected (thrown_Error
                  ("Operation failed after " +:+ show maxRetries +:+ " attempts: "
                     +:+ text_of error_message))))
              else
                await_timeout (100 * attempt) ;;
                retry_loop operation maxRetries fuel' attempt
          end
      end
    else ret (Some (Fulfilled None))
  end.

(** [const retryOperation = async (operation, maxRetries = 3) => { let attempt = 0; while ... }].
    Every pass through the loop body that reaches the next test has raised
    [attempt] by one, so [maxRetries] tests and one more always suffice. *)
Definition retryOperation (operation : @Operation T W) (maxRetries : Z)
  : @Exec T W (option (Settlement (option T) Thrown)) :=
  retry_loop operation maxRetries (S (Z.to_nat maxRetries)) 0.

Definition retryOperation_default (operation : @Operation T W) :=
  retryOperation operation 3.

End Retry.

Section Fallback.

Context {T W : Type}.

(** The [throw new Error(`Both operations failed. ...`)] of the inner [catch]
    block: the template reads [primaryError.message] first, then
    [fallbackError.message], and either read can throw instead. *)
Definition both_failed (primaryError fallbackError : Thrown) : Thrown :=
  match read_message primaryError with
  | inl exception => exception
  | inr primary_message =>
      match read_message fallbackError with
      | inl exception => exception
      | inr fallback_message =>
          thrown_Error
            ("Both operations failed. Primary: " +:+ text_of primary_message
               +:+ ", Fallback: " +:+ text_of fallback_message)
      end
  end.

(** [const withFallback = async (primaryOperation, fallbackOperation) => { try ... }] *)
Definition withFallback (primaryOperation fallbackOperation : @Operation T W)
  : @Exec T W (Settlement T Thrown) :=
  p ← await_call PrimaryOperation primaryOperation;
  match p with
  | Fulfilled result => mret (Fulfilled result)
  | Rejected primaryError =>
      console_warn ["Primary operation failed, trying fallback"];;
      f ← await_call FallbackOperation fallbackOperation;
      match f with
      | Fulfilled result => mret (Fulfilled result)
      | Rejected fallbackError => mret (Rejected (both_failed primaryError fallbackError))
      end
  end.

End Fallback.

(** ** Reading a run *)

Section Observations.

Context {T W : Type}.

Definition Callee_eqb (a b : Callee) : bool :=
  match a, b with
  | TheOperation, TheOperation
  | PrimaryOperation, PrimaryOperation
  | FallbackOperation, FallbackOperation => true
  | _, _ => false
  end.

Definition is_invoke (who : Callee) (e : Event T) : bool :=
  match e with Invoke who' => Callee_eqb who who' | _ => false end.

(** How many times [who] was called during a run. *)
Definition invocations (who : Callee) (tr : list (Event T)) : nat :=
  length (List.filter (is_invoke who) tr).

(** The timer waits of a run, oldest first. *)
Definition timeouts (tr : list (Event T)) : list Z :=
  omap (λ e, match e with Timeout ms => Some ms | _ => None end) tr.

(** A run without the console: calls, their outcomes and the waits. *)
Inductive Tick := Call | Fail | Succeed | Wait (ms : Z).

Definition ticks (tr : list (Event T)) : list Tick :=
  omap (λ e, match e with
             | Invoke _ => Some Call
             | Settled _ (Rejected _) => Some Fail
             | Settled _ (Fulfilled _) => Some Succeed
             | Timeout ms => Some (Wait ms)
             | Console _ _ => None
             end) tr.

(** The settlements of [n] successive calls of an operation, and the world
    they leave behind. *)
Fixpoint invoke_n (op : @Operation T W) (n : nat) (w : W)
  : list (Settlement T Thrown) * W :=
  match n with
  | O => ([], w)
  | S n' => let '(s, w1) := op w in
            let '(ss, w2) := invoke_n op n' w1 in
            (s :: ss, w2)
  end.

(** The events of the failed attempts that are followed by a wait, the first
    of them made with the counter at [attempt]; the reasons are values whose
    [message] can be read. *)
Fixpoint failed_attempts (maxRetries attempt : Z) (es : list Value) : list (Event T) :=
  match es with
  | [] => []
  | error :: es' =>
      [Console Log ["Attempt " +:+ show (attempt + 1) +:+ "/" +:+ show maxRetries];
       Invoke TheOperation;
       Settled TheOperation (Rejected (thrown error));
       Console Err ["❌ Attempt " +:+ show (attempt + 1) +:+ " failed:";
                    text_of (message_of error)];
       Timeout (100 * (attempt + 1))]
      ++ failed_attempts maxRetries (attempt + 1) es'
  end.

Definition calls (ts : list Tick) : nat :=
  length (List.filter (λ t, match t with Call => true | _ => false end) ts).

(** [n] failed attempts, each followed by its wait. *)
Fixpoint backoff_ticks (attempt : Z) (n : nat) : list Tick :=
  match n with
  | O => []
  | S n' => Call :: Fail :: Wait (100 * (attempt + 1)) :: backoff_ticks (attempt + 1) n'
  end.

End Observations.

(** ** The operations [errorRecovery] passes to the executors *)

(** [async asyncOperation(type, delay)]: settles after [delay] ms, fulfilled
    for the type ["success"] and rejected otherwise. *)
Definition asyncOperation {W} (type : string) (delay : Z) : @Operation string W :=
  λ w, if bool_decide (type = "success")
       then (Fulfilled ("Async operation completed after " +:+ show delay +:+ "ms"), w)
       else (Rejected (thrown_Error ("Async operation failed after " +:+ show delay +:+ "ms")), w).

(** [async unreliableOperation()].  The world is what the coming tests
    [Math.random() < 0.7] are going to say, the next one first. *)
Definition unreliableOperation : @Operation string (nat → bool) :=
  λ random,
    if random 0%nat
    then (Rejected (thrown_Error "Unreliable operation failed"), λ n, random (S n))
    else (Fulfilled "Unreliable operation succeeded", λ n, random (S n)).

(** ** Operations that reject with something else than an [Error] *)

(** [() => Promise.reject()]: every call is rejected with [undefined]. *)
Definition rejects_with_undefined : @Operation string unit :=
  λ w, (Rejected (thrown_nullish undefined), w).

(** [() => calls++ === 0 ? Promise.reject() : Promise.resolve("done")]: the
    world is the number of calls made so far. *)
Definition undefined_then_done : @Operation string nat :=
  λ calls,
    if bool_decide (calls = 0%nat)
    then (Rejected (thrown_nullish undefined), S calls)
    else (Fulfilled "done", S calls).

(** [() => Promise.reject(reason)] for a string [reason], as the ["A"] and
    ["B"] of the specification. *)
Definition rejects_with_string (reason : string) : @Operation string unit :=
  λ w, (Rejected (thrown (without_message reason)), w).

End TryCatch.

Module Promises.

Section Tracker.

(** Fulfilment values and rejection reasons; the tracker reads neither. *)
Context {T E : Type}.

(** An entry of [this.completedOperations]:
    [{ name, status: "fulfilled", result }] or [{ name, status: "rejected", error }]. *)
Inductive OperationRecord :=
| fulfilled (name : string) (result : T)
| rejected (name : string) (error : E).

Definition record_name (r : OperationRecord) : string :=
  match r with fulfilled name _ | rejected name _ => name end.

Definition status (r : OperationRecord) : string :=
  match r with fulfilled _ _ => "fulfilled" | rejected _ _ => "rejected" end.

(** The record a tracked operation named [name] leaves when it settles with [s]. *)
Definition record_of (name : string) (s : Settlement T E) : OperationRecord :=
  match s with
  | Fulfilled result => fulfilled name result
  | Rejected error => rejected name error
  end.

(** The fields the constructor of [AsyncDebugging] sets.  A JavaScript [Set]
    also remembers insertion order; only membership and size are read from
    [pendingOperations], so it is a finite set here. *)
Record AsyncDebugging := {
  requestId : Z;
  pendingOperations : gset string;
  completedOperations : list OperationRecord;
}.

Definition constructor : AsyncDebugging :=
  {| requestId := 0; pendingOperations := ∅; completedOperations := [] |}.

(** [this.pendingOperations.add(name)] *)
Definition pendingOperations_add (name : string) (this : AsyncDebugging) :=
  {| requestId := requestId this;
     pendingOperations := {[ name ]} ∪ pendingOperations this;
     completedOperations := completedOperations this |}.

(** [this.pendingOperations.delete(name)] *)
Definition pendingOperations_delete (name : string) (this : AsyncDebugging) :=
  {| requestId := requestId this;
     pendingOperations := pendingOperations this ∖ {[ name ]};
     completedOperations := completedOperations this |}.

(** [this.completedOperations.push(r)] *)
Definition completedOperations_push (r : OperationRecord) (this : AsyncDebugging) :=
  {| requestId := requestId this;
     pendingOperations := pendingOperations this;
     completedOperations := completedOperations this ++ [r] |}.

(** How a handler passed to [.then] / [.catch] ends. *)
Inductive Completion := Return (v : T) | Throw (e : E).

Definition settle (c : Completion) : Settlement T E :=
  match c with Return v => Fulfilled v | Throw e => Rejected e end.

Definition Handler (A : Type) := A → AsyncDebugging → Completion * AsyncDebugging.

(** The arrow function given to [.then] in [createTrackedPromise]. *)
Definition onFulfilled (name : string) : Handler T := λ result this,
  let this := pendingOperations_delete name this in
  let this := completedOperations_push (fulfilled name result) this in
  (Return result, this).

(** The arrow function given to [.catch] in [createTrackedPromise]. *)
Definition onRejected (name : string) : Handler E := λ error this,
  let this := pendingOperations_delete name this in
  let this := completedOperations_push (rejected name error) this in
  (Throw error, this).

(** [p.then(h)]: what the derived promise settles with once [p] has settled
    with [s].  A rejection skips the handler and is handed on. *)
Definition then_ (h : Handler T) (s : Settlement T E) (this : AsyncDebugging)
  : Settlement T E * AsyncDebugging :=
  match s with
  | Fulfilled v => let '(c, this') := h v this in (settle c, this')
  | Rejected e => (Rejected e, this)
  end.

(** [p.catch(h)]: a fulfilment skips the handler and is handed on. *)
Definition catch_ (h : Handler E) (s : Settlement T E) (this : AsyncDebugging)
  : Settlement T E * AsyncDebugging :=
  match s with
  | Fulfilled v => (Fulfilled v, this)
  | Rejected e => let '(c, this') := h e this in (settle c, this')
  end.

(** ** The event loop around the tracker

    [createTrackedPromise] only attaches handlers; they run later, as promise
    jobs.  [.catch] is attached to the promise that [.then] returns, so the
    chain takes two jobs: the first reacts to the factory's promise, the
    second to the promise derived by [.then]. *)

Inductive Job :=
| RunThen (promise : nat) (name : string) (s : Settlement T E)
| RunCatch (promise : nat) (name : string) (s : Settlement T E).

(** What can be seen of a session from outside, oldest first. *)
Inductive Event :=
| OperationSettled (promise : nat) (name : string) (s : Settlement T E)
| Resurfaced (promise : nat) (name : string) (s : Settlement T E).

(** A [setTimeout] callback that settles [target] with [outcome]. *)
Record Timer := { due : Z; target : nat; outcome : Settlement T E }.

Record Loop := {
  this : AsyncDebugging;
  now : Z;                                (* clock, in ms *)
  fresh : nat;                            (* next promise to be created *)
  settled : gmap nat (Settlement T E);    (* state of the promises that are no longer pending *)
  reactions : list (nat * string);        (* chains of createTrackedPromise waiting on a pending promise *)
  microtasks : list Job;                  (* promise jobs, first in first out *)
  timers : list Timer;                    (* in firing order *)
  log : list Event;
}.

Definition start : Loop :=
  {| this := constructor; now := 0; fresh := 0%nat; settled := ∅;
     reactions := []; microtasks := []; timers := []; log := [] |}.

Definition with_this (f : AsyncDebugging → AsyncDebugging) (L : Loop) : Loop :=
  {| this := f (this L); now := now L; fresh := fresh L; settled := settled L;
     reactions := reactions L; microtasks := microtasks L; timers := timers L;
     log := log L |}.

Definition enqueue (j : Job) (L : Loop) : Loop :=
  {| this := this L; now := now L; fresh := fresh L; settled := settled L;
     reactions := reactions L; microtasks := microtasks L ++ [j];
     timers := timers L; log := log L |}.

Definition record_event (e : Event) (L : Loop) : Loop :=
  {| this := this L; now := now L; fresh := fresh L; settled := settled L;
     reactions := reactions L; microtasks := microtasks L; timers := timers L;
     log := log L ++ [e] |}.

(** A promise settles once; its state is kept from then on. *)
Definition mark_settled (p : nat) (s : Settlement T E) (L : Loop) : Loop :=
  {| this := this L; now := now L; fresh := fresh L;
     settled := <[p := s]> (settled L);
     reactions := reactions L; microtasks := microtasks L; timers := timers L;
     log := log L |}.

(** [new Promise(...)]: the next identifier. *)
Definition new_promise (L : Loop) : nat * Loop :=
  (fresh L,
   {| this := this L; now := now L; fresh := S (fresh L); settled := settled L;
      reactions := reactions L; microtasks := microtasks L; timers := timers L;
      log := log L |}).

(** [setTimeout]: callbacks fire by due time, and among equal due times the
    one set first fires first. *)
Fixpoint insert_timer (t : Timer) (ts : list Timer) : list Timer :=
  match ts with
  | [] => [t]
  | t' :: ts' =>
      if bool_decide (due t' ≤ due t) then t' :: insert_timer t ts' else t :: ts
  end.

(** The delay a timer runs with: Node replaces a delay below 1 ms or above
    2^31 - 1 ms by 1 ms. *)
Definition timer_delay (delay : Z) : Z :=
  if bool_decide (1 ≤ delay ≤ 2147483647) then delay else 1.

Definition setTimeout (p : nat) (s : Settlement T E) (delay : Z) (L : Loop) : Loop :=
  {| this := this L; now := now L; fresh := fresh L; settled := settled L;
     reactions := reactions L; microtasks := microtasks L;
     timers := insert_timer
                 {| due := now L + timer_delay delay; target := p; outcome := s |}
                 (timers L);
     log := log L |}.

(** The job that starts a chain whose promise has settled. *)
Definition fire (p : nat) (s : Settlement T E) (name : string) (L : Loop) : Loop :=
  record_event (OperationSettled p name s) (enqueue (RunThen p name s) L).

(** [promise.then(..).catch(..)] on promise [p]: wait if [p] is pending,
    queue the first job at once if it has settled already. *)
Definition attach (p : nat) (name : string) (L : Loop) : Loop :=
  match settled L !! p with
  | Some s => fire p s name L
  | None =>
      {| this := this L; now := now L; fresh := fresh L; settled := settled L;
         reactions := reactions L ++ [(p, name)]; microtasks := microtasks L;
         timers := timers L; log := log L |}
  end.

(** [resolve(v)] / [reject(e)] from a timer callback: ignored on a settled
    promise, otherwise every waiting chain gets its first job, in the order
    in which the chains were attached. *)
Definition settle_promise (p : nat) (s : Settlement T E) (L : Loop) : Loop :=
  match settled L !! p with
  | Some _ => L
  | None =>
      let waiting := filter (λ r, r.1 = p) (reactions L) in
      let others := filter (λ r, r.1 ≠ p) (reactions L) in
      let L := mark_settled p s L in
      let L :=
        {| this := this L; now := now L; fresh := fresh L; settled := settled L;
           reactions := others; microtasks := microtasks L; timers := timers L;
           log := log L |} in
      foldl (λ L r, fire p s r.2 L) L waiting
  end.

Definition run_job (j : Job) (L : Loop) : Loop :=
  match j with
  | RunThen p name s =>
      let '(s1, this1) := then_ (onFulfilled name) s (this L) in
      enqueue (RunCatch p name s1) (with_this (λ _, this1) L)
  | RunCatch p name s1 =>
      let '(s2, this2) := catch_ (onRejected name) s1 (this L) in
      record_event (Resurfaced p name s2) (with_this (λ _, this2) L)
  end.

(** One turn of the loop: the oldest promise job if there is one, otherwise
    the next timer callback. *)
Definition turn (L : Loop) : Loop :=
  match microtasks L with
  | j :: rest =>
      run_job j
        {| this := this L; now := now L; fresh := fresh L; settled := settled L;
           reactions := reactions L; microtasks := rest; timers := timers L;
           log := log L |}
  | [] =>
      match timers L with
      | t :: rest =>
          settle_promise (target t) (outcome t)
            {| this := this L; now := Z.max (now L) (due t); fresh := fresh L;
               settled := settled L; reactions := reactions L;
               microtasks := []; timers := rest; log := log L |}
      | [] => L
      end
  end.

Fixpoint turns (n : nat) (L : Loop) : Loop :=
  match n with
  | O => L
  | S n' => turns n' (turn L)
  end.

Definition idle (L : Loop) : bool :=
  match microtasks L, timers L with [], [] => true | _, _ => false end.

(** What calling a function does: it throws or it returns. *)
Inductive Invoked (P : Type) := Throws (exception : E) | Returns (promise : P).
Arguments Throws {P} exception.
Arguments Returns {P} promise.

Definition PromiseFactory := Loop → Invoked nat * Loop.

(** [createTrackedPromise(name, promiseFactory)].  The returned promise is
    named by the promise it wraps and by [name]. *)
Definition createTrackedPromise (name : string) (promiseFactory : PromiseFactory)
    (L : Loop) : Invoked (nat * string) * Loop :=
  match promiseFactory L with
  | (Throws exception, L) => (Throws exception, L)
  | (Returns promise, L) =>
      let L := with_this (pendingOperations_add name) L in
      (Returns (promise, name), attach promise name L)
  end.

(** ** Promise factories

    What a factory can do when it is called: throw, hand out a promise that
    has settled already (an [async] function that returns or throws at once,
    as [unreliableOperation] does), or hand out a pending promise that a
    [setTimeout] callback settles [delay] ms later (as [delayedOperation],
    [fetchUser] and [fetchUserPosts] do). *)
Inductive Factory :=
| Throwing (exception : E)
| Immediate (s : Settlement T E)
| Delayed (delay : Z) (s : Settlement T E).

Definition call (f : Factory) : PromiseFactory := λ L,
  match f with
  | Throwing exception => (Throws exception, L)
  | Immediate s =>
      let '(p, L) := new_promise L in (Returns p, mark_settled p s L)
  | Delayed delay s =>
      let '(p, L) := new_promise L in (Returns p, setTimeout p s delay L)
  end.

(** ** Sessions *)

Inductive Command :=
| Create (name : string) (f : Factory)
| Turn.

Definition exec (L : Loop) (c : Command) : Loop :=
  match c with
  | Create name f => (createTrackedPromise name (call f) L).2
  | Turn => turn L
  end.

Definition run (script : list Command) (L : Loop) : Loop := foldl exec L script.

(** The names a script registers, in order. *)
Definition registered (script : list Command) : list string :=
  omap (λ c, match c with
             | Create name (Throwing _) => None
             | Create name _ => Some name
             | Turn => None
             end) script.

(** The names whose handler that writes the record has not run yet: chains
    on a pending promise, chains whose first job is queued, and rejected
    chains between their two jobs. *)
Definition job_waiting (j : Job) : option string :=
  match j with
  | RunThen _ name _ => Some name
  | RunCatch _ name (Rejected _) => Some name
  | RunCatch _ _ (Fulfilled _) => None
  end.

Definition waiting (L : Loop) : list string :=
  (reactions L).*2 ++ omap job_waiting (microtasks L).

Definition completed_names (L : Loop) : list string :=
  record_name <$> completedOperations (this L).

(** [reg] lists the names registered so far: each of them waits or has its
    record, as often as it was registered; and as long as no name was
    registered twice, the pending set holds exactly the waiting names. *)
Definition tracks (reg : list string) (L : Loop) : Prop :=
  waiting L ++ completed_names L ≡ₚ reg ∧
  (NoDup reg → ∀ x, x ∈ pendingOperations (this L) ↔ x ∈ waiting L).

(** What the jobs and the log say agrees with the promises: a job carries
    the settlement of its promise, a fulfilled chain between its two jobs
    has its record already, and so has every chain that has resurfaced. *)
Definition faithful (L : Loop) : Prop :=
  (∀ p name s, Resurfaced p name s ∈ log L →
     settled L !! p = Some s ∧ record_of name s ∈ completedOperations (this L)) ∧
  (∀ p name s, RunThen p name s ∈ microtasks L → settled L !! p = Some s) ∧
  (∀ p name s, RunCatch p name s ∈ microtasks L →
     settled L !! p = Some s ∧
     (is_fulfilled s = true → record_of name s ∈ completedOperations (this L))) ∧
  (∀ p, is_Some (settled L !! p) → (p < fresh L)%nat) ∧
  (∀ t, t ∈ timers L → (target t < fresh L)%nat).

(** Every chain whose promise has settled is on its way through the queue
    or has resurfaced. *)
Definition accounted (L : Loop) : Prop :=
  ∀ p name s, OperationSettled p name s ∈ log L →
    RunThen p name s ∈ microtasks L
    ∨ RunCatch p name s ∈ microtasks L
    ∨ Resurfaced p name s ∈ log L.

(** The records of the tracked operations in the order in which their
    promises settled. *)
Definition settlement_order (L : Loop) : list OperationRecord :=
  omap (λ e, match e with
             | OperationSettled _ name s => Some (record_of name s)
             | Resurfaced _ _ _ => None
             end) (log L).

Definition is_fulfilled_record (r : OperationRecord) : bool :=
  match r with fulfilled _ _ => true | rejected _ _ => false end.

Definition is_rejected_record (r : OperationRecord) : bool :=
  match r with fulfilled _ _ => false | rejected _ _ => true end.

(** The records that the queued jobs are still going to write. *)
Definition job_fulfilled (j : Job) : option OperationRecord :=
  match j with
  | RunThen _ name (Fulfilled v) => Some (fulfilled name v)
  | _ => None
  end.

Definition job_rejected_catch (j : Job) : option OperationRecord :=
  match j with
  | RunCatch _ name (Rejected e) => Some (rejected name e)
  | _ => None
  end.

Definition job_rejected_then (j : Job) : option OperationRecord :=
  match j with
  | RunThen _ name (Rejected e) => Some (rejected name e)
  | _ => None
  end.

(** Among the operations that were fulfilled, and among those that were
    rejected, records are written in the order of settlement. *)
Definition ordered_by_status (L : Loop) : Prop :=
  List.filter is_fulfilled_record (settlement_order L)
  = List.filter is_fulfilled_record (completedOperations (this L))
    ++ omap job_fulfilled (microtasks L)
  ∧ List.filter is_rejected_record (settlement_order L)
    = List.filter is_rejected_record (completedOperations (this L))
      ++ omap job_rejected_catch (microtasks L)
      ++ omap job_rejected_then (microtasks L).

(** Sessions in which no factory hands out a settled promise: every tracked
    promise settles from a timer callback of its own. *)
Definition from_timer (c : Command) : bool :=
  match c with
  | Create _ (Immediate _) => false
  | _ => true
  end.

(** At most one chain is between the settlement of its promise and its
    record; apart from that one, the completed sequence is the settlement
    order. *)
Definition one_at_a_time (L : Loop) : Prop :=
  NoDup (reactions L).*1 ∧
  (∀ r, r ∈ reactions L → (r.1 < fresh L)%nat) ∧
  match microtasks L with
  | [] => completedOperations (this L) = settlement_order L
  | [RunThen _ name s] =>
      completedOperations (this L) ++ [record_of name s] = settlement_order L
  | [RunCatch _ _ (Fulfilled _)] =>
      completedOperations (this L) = settlement_order L
  | [RunCatch _ name (Rejected e)] =>
      completedOperations (this L) ++ [rejected name e] = settlement_order L
  | _ => False
  end.

(** A tracked operation that settles from a timer. *)
Record TimedOperation := { op_name : string; op_delay : Z; op_outcome : Settlement T E }.

Definition track (o : TimedOperation) : Command :=
  Create (op_name o) (Delayed (op_delay o) (op_outcome o)).

(** ** What a session owes

    The operations a script registers, each with what the promise of its
    factory settles with, in the order of registration. *)
Definition settlements (script : list Command) : list (string * Settlement T E) :=
  omap (λ c, match c with
             | Create name (Immediate s) | Create name (Delayed _ s) => Some (name, s)
             | _ => None
             end) script.

(** The records these operations are to leave. *)
Definition records (script : list Command) : list OperationRecord :=
  (λ x, record_of x.1 x.2) <$> settlements script.

(** What the promises returned by [createTrackedPromise] have settled with so
    far, oldest first. *)
Definition resurfaced (L : Loop) : list (string * Settlement T E) :=
  omap (λ e, match e with
             | Resurfaced _ name s => Some (name, s)
             | OperationSettled _ _ _ => None
             end) (log L).

(** The chain a queued job belongs to, and the record it or its successor is
    still to write. *)
Definition job_chain (j : Job) : string * Settlement T E :=
  match j with RunThen _ name s | RunCatch _ name s => (name, s) end.

Definition job_owes (j : Job) : option OperationRecord :=
  match j with
  | RunThen _ name s => Some (record_of name s)
  | RunCatch _ name (Rejected e) => Some (rejected name e)
  | RunCatch _ _ (Fulfilled _) => None
  end.

(** Timers with the name of the chain that waits on their promise;
    [insert_chain] follows [insert_timer]. *)
Fixpoint insert_chain (x : Timer * string) (q : list (Timer * string))
    : list (Timer * string) :=
  match q with
  | [] => [x]
  | y :: q' =>
      if bool_decide (due y.1 ≤ due x.1) then y :: insert_chain x q' else x :: q
  end.

(** The timers of the loop are those of [q], each has one chain on its
    promise, which is still pending, and no other chain waits. *)
Definition in_flight (q : list (Timer * string)) (L : Loop) : Prop :=
  timers L = q.*1 ∧
  NoDup (target <$> q.*1) ∧
  NoDup (reactions L).*1 ∧
  (∀ x, x ∈ q →
     settled L !! target x.1 = None
     ∧ (target x.1, x.2) ∈ reactions L
     ∧ (target x.1 < fresh L)%nat) ∧
  (∀ r, r ∈ reactions L → ∃ x, x ∈ q ∧ r = (target x.1, x.2)) ∧
  (∀ p, is_Some (settled L !! p) → (p < fresh L)%nat).

(** Each registered operation is on its way (waiting for its timer or in the
    queue) or has resurfaced, and each record is still owed or written. *)
Definition progress (script : list Command) (q : list (Timer * string)) (L : Loop)
    : Prop :=
  in_flight q L ∧
  resurfaced L ++ (job_chain <$> microtasks L) ++ ((λ x, (x.2, outcome x.1)) <$> q)
    ≡ₚ settlements script ∧
  completedOperations (this L) ++ omap job_owes (microtasks L)
    ++ ((λ x, record_of x.2 (outcome x.1)) <$> q)
    ≡ₚ records script.

(** The turns the loop still has to take: a callback and two jobs for each
    timer, two jobs for a chain that has not started, one for a chain between
    its jobs. *)
Definition job_work (j : Job) : nat :=
  match j with RunThen _ _ _ => 2 | RunCatch _ _ _ => 1 end.

Definition work (L : Loop) : nat :=
  (3 * length (timers L) + sum_list_with job_work (microtasks L))%nat.

(** Every name in the pending set belongs to a chain that has not written
    its record yet. *)
Definition covered (L : Loop) : Prop :=
  ∀ x, x ∈ pendingOperations (this L) → x ∈ waiting L.

End Tracker.

End Promises.

Arguments Promises.Throws {E P} exception.
Arguments Promises.Returns {E P} promise.
Arguments Promises.OperationRecord : clear implicits.
Arguments Promises.AsyncDebugging : clear implicits.
Arguments Promises.Loop : clear implicits.
Arguments Promises.Job : clear implicits.
Arguments Promises.Event : clear implicits.
Arguments Promises.Timer : clear implicits.
Arguments Promises.Factory : clear implicits.
Arguments Promises.Command : clear implicits.
Arguments Promises.TimedOperation : clear implicits.
Arguments Promises.PromiseFactory : clear implicits.

(** * More of [src/errors/try-catch.js] *)

Module Recovery.
Import TryCatch.

(** ** Reading the outcome of a retry off the calls of the operation *)


(** Time spent in the waits of a run. *)
Definition total_wait {T} (tr : list (Event T)) : Z := foldr Z.add 0 (timeouts tr).

End Recovery.

(** * More about tracking sessions *)

Module Sessions.
Import Promises.

Section Timed.

Context {T E : Type}.

(** The timer [delayedOperation] sets when it is called at time 0 and its
    promise is number [x.1]. *)
Definition timer_of (x : nat * TimedOperation T E) : Timer T E :=
  {| due := 0 + timer_delay (op_delay x.2); target := x.1; outcome := op_outcome x.2 |}.

(** Operations in flight with their promises, in the order in which their
    timers fire; [insert_op] follows [insert_timer]. *)
Fixpoint insert_op (x : nat * TimedOperation T E)
    (xs : list (nat * TimedOperation T E)) : list (nat * TimedOperation T E) :=
  match xs with
  | [] => [x]
  | y :: ys =>
      if bool_decide (timer_delay (op_delay y.2) ≤ timer_delay (op_delay x.2))
      then y :: insert_op x ys else x :: xs
  end.

(** The loop waits for the timers of [q], each with one chain on its promise. *)
Definition lined_up (q : list (nat * TimedOperation T E)) (L : Loop T E) : Prop :=
  microtasks L = [] ∧
  timers L = timer_of <$> q ∧
  NoDup q.*1 ∧
  NoDup (reactions L).*1 ∧
  ∀ x, x ∈ q → settled L !! x.1 = None ∧ (x.1, op_name x.2) ∈ reactions L.

Definition by_delay (a b : TimedOperation T E) : Prop :=
  timer_delay (op_delay a) ≤ timer_delay (op_delay b).

Definition record_of_operation (o : TimedOperation T E) : OperationRecord T E :=
  record_of (op_name o) (op_outcome o).

End Timed.

End Sessions.

(** * The error log of [src/errors/try-catch.js] *)

Module ErrorLog.

(** What [logError] reads of a value that has properties; [None] is
    [undefined], and a property that is there is a string. *)
Record Fields := { name : option string; message : option string; stack : option string }.

(** What [logError] can be given: any value that was caught. *)
Inductive Caught :=
| caught_nullish (v : Nullish)
| caught (e : Fields).

(** The [TypeError] of reading [property] of [undefined] or [null]. *)
Inductive Exception := cannot_read (property : string) (v : Nullish).

Record LogEntry := {
  id : Z;
  context : string;
  error : Fields;
  timestamp : string;
}.

Record ErrorHandlingDebugging := {
  errorCount : Z;
  errorLog : list LogEntry;
}.

Definition constructor : ErrorHandlingDebugging :=
  {| errorCount := 0; errorLog := [] |}.

(** [logError(context, error)]; [clock] is what [new Date().toISOString()]
    returns at the call.  The counter is raised first; the entry is built
    after that, and reading [error.name] throws when [error] is [undefined]
    or [null], so that nothing is pushed. *)
Definition logError (context : string) (error : Caught) (clock : string)
    (this : ErrorHandlingDebugging) : option Exception * ErrorHandlingDebugging :=
  let errorCount := errorCount this + 1 in
  match error with
  | caught_nullish v =>
      (Some (cannot_read "name" v),
       {| errorCount := errorCount; errorLog := errorLog this |})
  | caught e =>
      (None,
       {| errorCount := errorCount;
          errorLog := errorLog this ++
            [ {| id := errorCount; context := context; error := e;
                 timestamp := clock |} ] |})
  end.

(** A row of the table of [displayErrorStats]. *)
Record Row := { ID : Z; Context : string; Type_ : option string; Message : string }.

Inductive Output :=
  | console_log (line : string)
  | console_table (rows : list Row).

(** The arrow function of [this.errorLog.map(...)]: [.substring] is read of
    the message, which throws when the logged value had none. *)
Definition row_of (log : LogEntry) : Exception + Row :=
  match message (error log) with
  | None => inl (cannot_read "substring" undefined)
  | Some text =>
      inr {| ID := id log;
             Context := context log;
             Type_ := name (error log);
             Message := String.substring 0 50 text +:+ "..." |}
  end.

(** [this.errorLog.map(...)]: the rows in the order of the entries, up to
    the first entry for which the arrow function throws. *)
Fixpoint rows_of (logs : list LogEntry) : Exception + list Row :=
  match logs with
  | [] => inr []
  | log :: logs' =>
      match row_of log with
      | inl exception => inl exception
      | inr row =>
          match rows_of logs' with
          | inl exception => inl exception
          | inr rows => inr (row :: rows)
          end
      end
  end.

(** [displayErrorStats()]: what it prints, and the exception it throws if it
    does. *)
Definition displayErrorStats (this : ErrorHandlingDebugging)
    : list Output * option Exception :=
  let lines :=
    [ console_log (String (Ascii.ascii_of_nat 10) "=== ERROR STATISTICS ===");
      console_log ("Total errors logged: " +:+ show (errorCount this)) ] in
  if bool_decide (0 < length (errorLog this))%nat
  then match rows_of (errorLog this) with
       | inl exception => (lines, Some exception)
       | inr rows => (lines ++ [ console_table rows ], None)
       end
  else (lines, None).

(** A call of [logError]. *)
Record Call := { call_context : string; call_error : Caught; call_clock : string }.

(** The object after a sequence of calls of [logError] on a new one, whether
    they return or throw. *)
Definition logged (calls : list Call) : ErrorHandlingDebugging :=
  foldl (λ this c, (logError (call_context c) (call_error c) (call_clock c) this).2)
    constructor calls.

(** The calls that throw. *)
Definition throws (c : Call) : bool :=
  match call_error c with caught_nullish _ => true | caught _ => false end.

(** The entries that the calls leave when [i] calls were made before them. *)
Fixpoint entries_from (i : nat) (calls : list Call) : list LogEntry :=
  match calls with
  | [] => []
  | c :: calls' =>
      match call_error c with
      | caught_nullish _ => entries_from (S i) calls'
      | caught e =>
          {| id := Z.of_nat i + 1; context := call_context c; error := e;
             timestamp := call_clock c |} :: entries_from (S i) calls'
      end
  end.

End ErrorLog.

(** * The monitor of [src/async/promises.js] *)

Module Monitor.
Import Promises.

Section Monitoring.

Context {T E : Type}.

(** What [monitor] prints: the pending names (a set here: the order of
    [Array.from] is not kept), or the completion line and the table. *)
Inductive Report :=
  | PendingOperations (names : gset string)
  | AllCompleted (table : list (OperationRecord T E)).

(** One run of the closure [monitor]: what it prints, and whether it sets its
    timer again. *)
Definition monitor (this : AsyncDebugging T E) : Report * bool :=
  if bool_decide (0 < size (pendingOperations this))%nat
  then (PendingOperations (pendingOperations this), true)
  else (AllCompleted (completedOperations this), false).

(** The runs of [monitor] from the [k]-th on, the first of them at time [t];
    [view k] is the object as the [k]-th run finds it.  The result holds the
    reports with their times, and whether the monitor has stopped. *)
Fixpoint polls (fuel : nat) (view : nat → AsyncDebugging T E) (k : nat) (t : Z)
    : list (Z * Report) * bool :=
  match fuel with
  | O => ([], false)
  | S fuel =>
      let '(report, again) := monitor (view k) in
      if again
      then let '(rest, stopped) := polls fuel view (S k) (t + 50) in
           ((t, report) :: rest, stopped)
      else ([(t, report)], true)
  end.

(** [monitorPendingOperations()] called at time [now]. *)
Definition monitorPendingOperations (fuel : nat) (view : nat → AsyncDebugging T E)
    (now : Z) : list (Z * Report) * bool :=
  polls fuel view 0 (now + 50).

(** The pending reports of the runs [k], ..., [k + n - 1]. *)
Definition pending_reports (view : nat → AsyncDebugging T E) (k n : nat) (t : Z)
    : list (Z * Report) :=
  (λ i : nat, (t + 50 * Z.of_nat i,
               PendingOperations (pendingOperations (view (k + i)%nat)))) <$> seq 0 n.

End Monitoring.

End Monitor.

Arguments Monitor.Report : clear implicits.

(** * The shared counter of [raceConditionsDebugging] *)

Module Race.

Inductive Console :=
  | Starting (id : Z)
  | ReadValue (id current : Z)
  | WroteValue (id value : Z).

(** A call of [increment] waiting for its timer, with the value it read. *)
Record Sleeper := { sleeper_id : Z; sleeper_delay : Z; current : Z }.

Record World := {
  sharedResource : Z;
  console : list Console;
}.

(** [let sharedResource = 0] *)
Definition initial : World :=
  {| sharedResource := 0; console := [] |}.

(** [increment(id, delay)] up to its [await]: the world it leaves and what is
    left of the call. *)
Definition increment (id delay : Z) (w : World) : World * Sleeper :=
  let current := sharedResource w in
  ({| sharedResource := sharedResource w;
      console := console w ++ [ Starting id; ReadValue id current ] |},
   {| sleeper_id := id; sleeper_delay := delay; current := current |}).

(** The rest of [increment], once its timer has fired. *)
Definition resume (s : Sleeper) (w : World) : World :=
  let sharedResource := current s + 1 in
  {| sharedResource := sharedResource;
     console := console w ++ [ WroteValue (sleeper_id s) sharedResource ] |}.

(** The calls of an array [[increment(id1, delay1), ...]], made one after the
    other before any timer fires. *)
Definition start_tasks (tasks : list (Z * Z)) : World * list Sleeper :=
  foldl (λ st task,
           let '(w, s) := increment task.1 task.2 st.1 in (w, st.2 ++ [s]))
    (initial, []) tasks.

(** The timers fire in the order [order]. *)
Definition finish_tasks (order : list Sleeper) (w : World) : World :=
  foldl (λ w s, resume s w) w order.

End Race.

(** * Properties of the executors *)

Module TryCatchFacts.
Import TryCatch.

Section RetryFacts.

Context {T W : Type}.
Implicit Types (operation : @Operation T W) (w : W) (tr : list (Event T)).

Lemma invocations_app who tr1 tr2 :
  invocations who (tr1 ++ tr2) = (invocations who tr1 + invocations who tr2)%nat.
Proof. unfold invocations. by rewrite List.filter_app, length_app. Qed.

Lemma timeouts_app tr1 tr2 : timeouts (tr1 ++ tr2) = timeouts tr1 ++ timeouts tr2.
Proof. apply omap_app. Qed.

Lemma ticks_app tr1 tr2 : ticks (tr1 ++ tr2) = ticks tr1 ++ ticks tr2.
Proof. apply omap_app. Qed.

Lemma invoke_n_S operation n w :
  invoke_n operation (S n) w =
  ((operation w).1 :: (invoke_n operation n (operation w).2).1,
   (invoke_n operation n (operation w).2).2).
Proof.
  simpl. destruct (operation w) as [s w1]. simpl.
  by destruct (invoke_n operation n w1).
Qed.

(** One pass through the loop body, by the way it ends. *)
Lemma retry_loop_succeeds operation maxRetries fuel attempt w value w1 :
  operation w = (Fulfilled value, w1) →
  attempt < maxRetries →
  retry_loop operation maxRetries (S fuel) attempt w =
    (Some (Fulfilled (Some value)), w1,
     [Console Log ["Attempt " +:+ show (attempt + 1) +:+ "/" +:+ show maxRetries];
      Invoke TheOperation; Settled TheOperation (Fulfilled value);
      Console Log ["✓ Operation succeeded"]]).
Proof.
  intros Hop Hlt. simpl. rewrite bool_decide_eq_true_2 by done.
  unfold mbind, Exec_bind, bind, await_call, console_log, emit. simpl.
  by rewrite Hop.
Qed.

Lemma retry_loop_exhausted operation maxRetries fuel attempt w (error : Value) w1 :
  operation w = (Rejected (thrown error), w1) →
  attempt < maxRetries →
  attempt + 1 >= maxRetries →
  retry_loop operation maxRetries (S fuel) attempt w =
    (Some (Rejected (thrown_Error
       ("Operation failed after " +:+ show maxRetries +:+ " attempts: "
          +:+ text_of (message_of error)))), w1,
     [Console Log ["Attempt " +:+ show (attempt + 1) +:+ "/" +:+ show maxRetries];
      Invoke TheOperation; Settled TheOperation (Rejected (thrown error));
      Console Err ["❌ Attempt " +:+ show (attempt + 1) +:+ " failed:";
                   text_of (message_of error)];
      Console Err ["💥 All retry attempts exhausted"]]).
Proof.
  intros Hop Hlt Hge. simpl. rewrite bool_decide_eq_true_2 by done.
  unfold mbind, Exec_bind, bind, await_call, console_log, console_error, emit. simpl.
  rewrite Hop. simpl. by rewrite bool_decide_eq_true_2 by done.
Qed.

Lemma retry_loop_retries operation maxRetries fuel attempt w (error : Value) w1 :
  operation w = (Rejected (thrown error), w1) →
  attempt < maxRetries →
  attempt + 1 < maxRetries →
  retry_loop operation maxRetries (S fuel) attempt w =
    let '(r, w2, tr) := retry_loop operation maxRetries fuel (attempt + 1) w1 in
    (r, w2, failed_attempts maxRetries attempt [error] ++ tr).
Proof.
  intros Hop Hlt Hnext. simpl. rewrite bool_decide_eq_true_2 by done.
  unfold mbind, Exec_bind, bind, await_call, await_timeout, console_log,
    console_error, emit. simpl.
  rewrite Hop. simpl. rewrite bool_decide_eq_false_2 by lia.
  by destruct (retry_loop _ _ _ _ _) as [[r w2] tr].
Qed.

(** A failure whose reason is [undefined] or [null]: reading its message
    throws, and that ends the run. *)
Lemma retry_loop_gives_up operation maxRetries fuel attempt w (v : Nullish) w1 :
  operation w = (Rejected (thrown_nullish v), w1) →
  attempt < maxRetries →
  retry_loop operation maxRetries (S fuel) attempt w =
    (Some (Rejected (thrown (type_error v))), w1,
     [Console Log ["Attempt " +:+ show (attempt + 1) +:+ "/" +:+ show maxRetries];
      Invoke TheOperation; Settled TheOperation (Rejected (thrown_nullish v))]).
Proof.
  intros Hop Hlt. simpl. rewrite bool_decide_eq_true_2 by done.
  unfold mbind, Exec_bind, bind, await_call, console_log, emit. simpl.
  by rewrite Hop.
Qed.

Lemma retry_loop_skipped operation maxRetries fuel attempt w :
  maxRetries ≤ attempt →
  retry_loop operation maxRetries (S fuel) attempt w = (Some (Fulfilled None), w, []).
Proof. intros Hle. simpl. by rewrite bool_decide_eq_false_2 by lia. Qed.

Lemma invoke_n_add operation a b w :
  invoke_n operation (a + b) w =
  ((invoke_n operation a w).1 ++ (invoke_n operation b (invoke_n operation a w).2).1,
   (invoke_n operation b (invoke_n operation a w).2).2).
Proof.
  revert w. induction a as [|a IH]; intros w.
  - simpl. by destruct (invoke_n operation b w).
  - rewrite Nat.add_succ_l, !invoke_n_S, IH. done.
Qed.

Lemma invoke_n_length operation n w : length (invoke_n operation n w).1 = n.
Proof.
  revert w. induction n as [|n IH]; intros w; [done|].
  rewrite invoke_n_S. simpl. by rewrite IH.
Qed.

(** Failed attempts that leave room for another one are each followed by a
    wait and by the next pass through the loop. *)
Lemma retry_loop_failures operation maxRetries (es : list Value) :
  ∀ (fuel : nat) (attempt : Z) w,
    (invoke_n operation (length es) w).1 = Rejected ∘ thrown <$> es →
    attempt + Z.of_nat (length es) < maxRetries →
    retry_loop operation maxRetries (length es + fuel)%nat attempt w =
      let '(r, w2, tr) :=
        retry_loop operation maxRetries fuel (attempt + Z.of_nat (length es))
          (invoke_n operation (length es) w).2 in
      (r, w2, failed_attempts maxRetries attempt es ++ tr).
Proof.
  induction es as [|error es IH]; intros fuel attempt w Hes Hlt.
  - simpl. rewrite Z.add_0_r. by destruct (retry_loop _ _ _ _ _) as [[r w2] tr].
  - simpl length in *. rewrite invoke_n_S in Hes |- *.
    destruct (operation w) as [s w1] eqn:Hop. cbn [fst snd] in *.
    rewrite fmap_cons in Hes. injection Hes as -> Hes.
    rewrite Nat.add_succ_l.
    rewrite (retry_loop_retries _ _ _ _ _ _ _ Hop) by lia.
    rewrite IH by (done || lia).
    replace (attempt + 1 + Z.of_nat (length es))
      with (attempt + Z.of_nat (S (length es))) by lia.
    by destruct (retry_loop _ _ _ _ _) as [[r w2] tr].
Qed.

Lemma invocations_failed_attempts maxRetries attempt (es : list Value) :
  invocations (T:=T) TheOperation (failed_attempts maxRetries attempt es) = length es.
Proof.
  revert attempt. induction es as [|e es IH]; intros attempt; [done|].
  simpl. unfold invocations in *. simpl. by rewrite IH.
Qed.

Lemma timeouts_failed_attempts maxRetries attempt (es : list Value) :
  timeouts (T:=T) (failed_attempts maxRetries attempt es) =
  (λ i, 100 * i) <$> seqZ (attempt + 1) (Z.of_nat (length es)).
Proof.
  revert attempt. induction es as [|e es IH]; intros attempt; [done|].
  simpl length. rewrite seqZ_cons by lia. simpl.
  unfold timeouts in *. simpl. rewrite IH. do 3 f_equal; lia.
Qed.

Lemma ticks_failed_attempts maxRetries attempt (es : list Value) :
  ticks (T:=T) (failed_attempts maxRetries attempt es) = backoff_ticks attempt (length es).
Proof.
  revert attempt. induction es as [|e es IH]; intros attempt; [done|].
  simpl. unfold ticks in *. simpl. by rewrite IH.
Qed.

(** C1, amended.  An operation whose first [maxRetries] calls all fail, each
    with a reason other than [undefined] and [null] (the reasons [es] are
    values whose message can be read), is called exactly [maxRetries] times
    by [retryOperation]; the promise is then rejected with an [Error] whose
    message holds [maxRetries] as the number of attempts and the message of
    the failure of the last call (the text [undefined] when that reason has
    no message).  The waits between the attempts are the only delays, so
    with [maxRetries = 1] there is one call, no wait and no second
    attempt. *)
Theorem retry_exhausted_after_maxRetries operation (maxRetries : Z) w (es : list Value) :
  1 ≤ maxRetries →
  (invoke_n operation (Z.to_nat maxRetries) w).1 = Rejected ∘ thrown <$> es →
  ∃ error tr,
    last es = Some error ∧
    retryOperation operation maxRetries w =
      (Some (Rejected (thrown (error_object (new_Error
         ("Operation failed after " +:+ show maxRetries +:+ " attempts: "
            +:+ text_of (message_of error)))))),
       (invoke_n operation (Z.to_nat maxRetries) w).2, tr) ∧
    invocations TheOperation tr = Z.to_nat maxRetries ∧
    timeouts tr = (λ i, 100 * i) <$> seqZ 1 (maxRetries - 1) ∧
    (maxRetries = 1 → invocations TheOperation tr = 1%nat ∧ timeouts tr = []).
Proof.
  intros Hmax Hes.
  assert (length es = Z.to_nat maxRetries) as Hlen.
  { rewrite <- (length_fmap (Rejected (T:=T) ∘ thrown)), <- Hes. apply invoke_n_length. }
  induction es as [|error es _] using rev_ind; [simpl in Hlen; lia|].
  rewrite length_app in Hlen. simpl in Hlen.
  rewrite <- Hlen in Hes |- *. rewrite invoke_n_add in Hes |- *.
  cbn [fst snd] in *. rewrite fmap_app in Hes.
  apply app_inj_1 in Hes as [Hes Hlast];
    [|by rewrite invoke_n_length, length_fmap].
  set (w1 := (invoke_n operation (length es) w).2) in *.
  rewrite invoke_n_S in Hlast |- *. cbn [fst snd invoke_n] in *.
  destruct (operation w1) as [s w2] eqn:Hop. cbn [fst snd] in *.
  injection Hlast as ->.
  exists error.
  unfold retryOperation. rewrite <- Hlen.
  replace (S (length es + 1)) with (length es + 2)%nat by lia.
  rewrite retry_loop_failures by (done || lia). fold w1.
  rewrite (retry_loop_exhausted _ _ _ _ _ _ _ Hop) by lia.
  eexists. split; [by rewrite last_snoc|]. split; [done|].
  rewrite invocations_app, timeouts_app, invocations_failed_attempts,
    timeouts_failed_attempts.
  assert (timeouts (T:=T)
    [Console Log ["Attempt " +:+ show (0 + Z.of_nat (length es) + 1) +:+ "/" +:+ show maxRetries];
     Invoke TheOperation; Settled TheOperation (Rejected (thrown error));
     Console Err ["❌ Attempt " +:+ show (0 + Z.of_nat (length es) + 1) +:+ " failed:";
                  text_of (message_of error)];
     Console Err ["💥 All retry attempts exhausted"]] = []) as -> by done.
  rewrite app_nil_r.
  replace (maxRetries - 1) with (Z.of_nat (length es)) by lia.
  split; [done|]. split; [done|].
  intros ->. assert (length es = 0%nat) as -> by lia. done.
Qed.

(** C2, amended.  An operation that fails on its first [k] calls, each time
    with a reason other than [undefined] and [null], and succeeds on the next
    one, with [k < maxRetries], is called exactly [k + 1] times: the promise
    is fulfilled with the value of the successful call and the run ends with
    that call.  With [k = 0] this is the operation that succeeds at once and
    is called a single time. *)
Theorem retry_returns_first_success operation (maxRetries : Z) w
    (es : list Value) (value : T) :
  Z.of_nat (length es) < maxRetries →
  (invoke_n operation (S (length es)) w).1
    = (Rejected ∘ thrown <$> es) ++ [Fulfilled value] →
  ∃ tr,
    retryOperation operation maxRetries w =
      (Some (Fulfilled (Some value)), (invoke_n operation (S (length es)) w).2, tr) ∧
    invocations TheOperation tr = S (length es) ∧
    ticks tr = backoff_ticks 0 (length es) ++ [Call; Succeed].
Proof.
  intros Hlt Hes.
  replace (S (length es)) with (length es + 1)%nat in * by lia.
  rewrite invoke_n_add in Hes |- *. cbn [fst snd] in *.
  apply app_inj_1 in Hes as [Hes Hlast];
    [|by rewrite invoke_n_length, length_fmap].
  set (w1 := (invoke_n operation (length es) w).2) in *.
  rewrite invoke_n_S in Hlast |- *. cbn [fst snd invoke_n] in *.
  destruct (operation w1) as [s w2] eqn:Hop. cbn [fst snd] in *.
  injection Hlast as ->.
  unfold retryOperation.
  replace (S (Z.to_nat maxRetries))
    with (length es + S (Z.to_nat maxRetries - length es))%nat by lia.
  rewrite retry_loop_failures by (done || lia). fold w1.
  rewrite (retry_loop_succeeds _ _ _ _ _ _ _ Hop) by lia.
  eexists. split; [done|].
  rewrite invocations_app, ticks_app, invocations_failed_attempts,
    ticks_failed_attempts.
  split; [|done]. unfold invocations. simpl. lia.
Qed.

(** Every run of the loop with enough fuel ends, and ends in one of four
    ways: the loop body is never entered, a call succeeds, the last permitted
    attempt fails, or an attempt fails with [undefined] or [null].  Before
    that it is a row of failed attempts, each followed by its wait. *)
Lemma retry_loop_shape operation (maxRetries : Z) (fuel : nat) :
  ∀ (attempt : Z) w,
    Z.max 0 (maxRetries - attempt) < Z.of_nat fuel →
    ∃ r w' tr (n : nat) closing,
      retry_loop operation maxRetries fuel attempt w = (Some r, w', tr) ∧
      ticks tr = backoff_ticks attempt n ++ closing ∧
      timeouts tr = (λ i, 100 * i) <$> seqZ (attempt + 1) (Z.of_nat n) ∧
      invocations TheOperation tr = calls (ticks tr) ∧
      (closing = [] ∧ n = 0%nat ∧ maxRetries ≤ attempt ∧ r = Fulfilled None
       ∨ closing = [Call; Succeed] ∧ attempt + Z.of_nat n < maxRetries
           ∧ is_fulfilled r = true
       ∨ closing = [Call; Fail] ∧ attempt + Z.of_nat n + 1 = maxRetries
           ∧ is_rejected r = true
           ∧ (∃ error : Value, last tr = Some (Console Err ["💥 All retry attempts exhausted"])
                ∧ Settled TheOperation (Rejected (thrown error)) ∈ tr)
       ∨ closing = [Call; Fail] ∧ attempt + Z.of_nat n < maxRetries
           ∧ ∃ v, last tr = Some (Settled TheOperation (Rejected (thrown_nullish v)))
                  ∧ r = Rejected (thrown (type_error v))).
Proof.
  induction fuel as [|fuel IH]; intros attempt w Hfuel; [lia|].
  destruct (decide (attempt < maxRetries)) as [Hlt|Hge].
  - destruct (operation w) as [[value|[v|error]] w1] eqn:Hop.
    + rewrite (retry_loop_succeeds _ _ _ _ _ _ _ Hop) by done.
      eexists _, _, _, 0%nat, [Call; Succeed].
      repeat split; try done. right; left. repeat split; done || lia.
    + rewrite (retry_loop_gives_up _ _ _ _ _ _ _ Hop) by done.
      eexists _, _, _, 0%nat, [Call; Fail].
      repeat split; try done. right; right; right.
      split; [done|]. split; [lia|]. by exists v.
    + destruct (decide (attempt + 1 < maxRetries)) as [Hnext|Hlast].
      * rewrite (retry_loop_retries _ _ _ _ _ _ _ Hop) by done.
        destruct (IH (attempt + 1) w1) as (r & w' & tr & n & closing & -> & Hticks
          & Htimeouts & Hcalls & Hend); [lia|].
        exists r, w', (failed_attempts maxRetries attempt [error] ++ tr),
          (S n), closing.
        split; [done|].
        rewrite ticks_app, timeouts_app, invocations_app, Hticks, Htimeouts, Hcalls.
        split; [done|]. split.
        { rewrite (seqZ_cons (attempt + 1)) by lia. simpl.
          do 3 f_equal; lia. }
        split; [by rewrite Hticks|].
        destruct Hend as [(-> & -> & Hle & ->)
          | [(-> & Hn & Hr) | [(-> & Hn & Hr & e & Hlast & Hin) | (-> & Hn & v & Hlast & ->)]]].
        -- lia.
        -- right; left. repeat split; done || lia.
        -- right; right; left. split; [done|]. split; [lia|]. split; [done|].
           exists e. split.
           ++ rewrite last_app, Hlast. done.
           ++ apply elem_of_app. by right.
        -- right; right; right. split; [done|]. split; [lia|].
           exists v. split; [|done]. rewrite last_app, Hlast. done.
      * rewrite (retry_loop_exhausted _ _ _ _ _ _ _ Hop) by lia.
        eexists _, _, _, 0%nat, [Call; Fail].
        repeat split; try done. right; right; left.
        split; [done|]. split; [lia|]. split; [done|].
        exists error. split; [done|].
        apply list_elem_of_further, list_elem_of_further, list_elem_of_here.
  - rewrite retry_loop_skipped by lia.
    eexists _, _, _, 0%nat, []. repeat split; try done.
    left. repeat split; done || lia.
Qed.

(** C9, amended.  Whatever the operation does, a run of [retryOperation] is
    a row of failed attempts, the one made with [attempt] failures so far
    followed by a wait of [100 * attempt] time units and then by the next
    call.  The row ends with a success, with the failure that brings the
    counter to [maxRetries], or with a failure whose reason is [undefined] or
    [null]; neither of these is followed by a wait.  So each failure that is
    not the last permitted one and whose reason is a value with properties
    is followed by its wait, and the waits of a run are 100, 200, 300, ...
    in this order. *)
Theorem retry_waits_grow_linearly operation (maxRetries : Z) w :
  ∃ r w' tr (n : nat) closing,
    retryOperation operation maxRetries w = (Some r, w', tr) ∧
    ticks tr = backoff_ticks 0 n ++ closing ∧
    timeouts tr = (λ i, 100 * i) <$> seqZ 1 (Z.of_nat n) ∧
    (closing = [] ∧ n = 0%nat ∧ maxRetries ≤ 0
     ∨ closing = [Call; Succeed] ∧ Z.of_nat n < maxRetries
     ∨ closing = [Call; Fail] ∧ Z.of_nat n + 1 = maxRetries
         ∧ (∃ error : Value, Settled TheOperation (Rejected (thrown error)) ∈ tr
              ∧ last tr = Some (Console Err ["💥 All retry attempts exhausted"]))
     ∨ closing = [Call; Fail] ∧ Z.of_nat n < maxRetries
         ∧ ∃ v, last tr = Some (Settled TheOperation (Rejected (thrown_nullish v)))
                ∧ r = Rejected (thrown (type_error v))).
Proof.
  destruct (retry_loop_shape operation maxRetries (S (Z.to_nat maxRetries)) 0 w)
    as (r & w' & tr & n & closing & Hrun & Hticks & Htimeouts & _ & Hend); [lia|].
  exists r, w', tr, n, closing. repeat split; try done.
  destruct Hend as [(-> & -> & Hle & ->)
    | [(-> & Hn & Hr) | [(-> & Hn & Hr & e & Hlast & Hin) | (-> & Hn & v & Hlast & ->)]]].
  - left. repeat split; done || lia.
  - right; left. repeat split; done || lia.
  - right; right; left. split; [done|]. split; [lia|]. by exists e.
  - right; right; right. split; [done|]. split; [lia|]. by exists v.
Qed.

Lemma calls_app (ts1 ts2 : list Tick) : calls (ts1 ++ ts2) = (calls ts1 + calls ts2)%nat.
Proof. unfold calls. by rewrite List.filter_app, length_app. Qed.

Lemma calls_backoff_ticks attempt n : calls (backoff_ticks attempt n) = n.
Proof.
  revert attempt. induction n as [|n IH]; intros attempt; [done|].
  simpl. unfold calls in *. simpl. by rewrite IH.
Qed.

Lemma retryOperation_invocations operation (maxRetries : Z) w :
  (Z.to_nat (Z.min 1 maxRetries)
   ≤ invocations TheOperation (retryOperation operation maxRetries w).2
   ≤ Z.to_nat maxRetries)%nat.
Proof.
  destruct (retry_loop_shape operation maxRetries (S (Z.to_nat maxRetries)) 0 w)
    as (r & w' & tr & n & closing & Hrun & Hticks & _ & Hcalls & Hend); [lia|].
  unfold retryOperation. rewrite Hrun. cbn [snd].
  rewrite Hcalls, Hticks, calls_app, calls_backoff_ticks.
  destruct Hend as [(-> & -> & Hle & ->)
    | [(-> & Hn & Hr) | [(-> & Hn & Hr & _) | (-> & Hn & _)]]];
    unfold calls; simpl; lia.
Qed.

End RetryFacts.

Section FallbackFacts.

Context {T W : Type}.
Implicit Types (primaryOperation fallbackOperation : @Operation T W) (w : W).

(** The two ways through [withFallback]. *)
Lemma withFallback_primary_fulfilled primaryOperation fallbackOperation w (value : T) w1 :
  primaryOperation w = (Fulfilled value, w1) →
  withFallback primaryOperation fallbackOperation w =
    (Fulfilled value, w1,
     [Invoke PrimaryOperation; Settled PrimaryOperation (Fulfilled value)]).
Proof.
  intros Hp. unfold withFallback, mbind, Exec_bind, bind, await_call. by rewrite Hp.
Qed.

Lemma withFallback_primary_rejected primaryOperation fallbackOperation w
    (primaryError : Thrown) w1 (f : Settlement T Thrown) w2 :
  primaryOperation w = (Rejected primaryError, w1) →
  fallbackOperation w1 = (f, w2) →
  withFallback primaryOperation fallbackOperation w =
    (match f with
     | Fulfilled value => Fulfilled value
     | Rejected fallbackError => Rejected (both_failed primaryError fallbackError)
     end, w2,
     [Invoke PrimaryOperation; Settled PrimaryOperation (Rejected primaryError);
      Console Warn ["Primary operation failed, trying fallback"];
      Invoke FallbackOperation; Settled FallbackOperation f]).
Proof.
  intros Hp Hf.
  unfold withFallback, mbind, Exec_bind, bind, await_call, console_warn, emit.
  rewrite Hp. simpl. rewrite Hf. by destruct f.
Qed.

Lemma withFallback_invocations primaryOperation fallbackOperation w :
  invocations PrimaryOperation (withFallback primaryOperation fallbackOperation w).2 = 1%nat
  ∧ (invocations FallbackOperation (withFallback primaryOperation fallbackOperation w).2 ≤ 1)%nat.
Proof.
  destruct (primaryOperation w) as [[value|primaryError] w1] eqn:Hp.
  - rewrite (withFallback_primary_fulfilled _ fallbackOperation _ _ _ Hp).
    unfold invocations. simpl. lia.
  - destruct (fallbackOperation w1) as [f w2] eqn:Hf.
    rewrite (withFallback_primary_rejected _ _ _ _ _ _ _ Hp Hf).
    unfold invocations. simpl. lia.
Qed.

(** C4. When the primary operation succeeds, [withFallback] is fulfilled with
    its value; the primary has been called once, the fallback not at all,
    and the world is the one the primary left. *)
Theorem fallback_not_invoked_when_primary_succeeds
    primaryOperation fallbackOperation w (value : T) w1 :
  primaryOperation w = (Fulfilled value, w1) →
  ∃ tr,
    withFallback primaryOperation fallbackOperation w = (Fulfilled value, w1, tr) ∧
    tr = [Invoke PrimaryOperation; Settled PrimaryOperation (Fulfilled value)] ∧
    invocations PrimaryOperation tr = 1%nat ∧
    invocations FallbackOperation tr = 0%nat.
Proof.
  intros Hp. eexists. split; [|done].
  exact (withFallback_primary_fulfilled _ _ _ _ _ Hp).
Qed.

(** C3, amended.  When the primary operation fails, the fallback is called
    once, after the primary has settled as rejected.  If the fallback
    succeeds the result is its value and nothing else.  If it fails too and
    neither reason is [undefined] or [null], the result is an [Error] whose
    message holds the message of the primary reason and then that of the
    fallback reason, each the text [undefined] when the reason has no
    message; of a reason that is [undefined] or [null] no message can be
    read, and the [TypeError] of the first such read is the result. *)
Theorem fallback_invoked_once_after_primary_failure
    primaryOperation fallbackOperation w (primaryError : Thrown) w1
    (f : Settlement T Thrown) w2 :
  primaryOperation w = (Rejected primaryError, w1) →
  fallbackOperation w1 = (f, w2) →
  ∃ r tr,
    withFallback primaryOperation fallbackOperation w = (r, w2, tr) ∧
    tr = [Invoke PrimaryOperation; Settled PrimaryOperation (Rejected primaryError);
          Console Warn ["Primary operation failed, trying fallback"];
          Invoke FallbackOperation; Settled FallbackOperation f] ∧
    invocations PrimaryOperation tr = 1%nat ∧
    invocations FallbackOperation tr = 1%nat ∧
    r = match f with
        | Fulfilled value => Fulfilled value
        | Rejected fallbackError =>
            match primaryError, fallbackError with
            | thrown primary, thrown fallback =>
                Rejected (thrown (error_object (new_Error
                  ("Both operations failed. Primary: " +:+ text_of (message_of primary)
                     +:+ ", Fallback: " +:+ text_of (message_of fallback)))))
            | thrown_nullish v, _ => Rejected (thrown (type_error v))
            | thrown _, thrown_nullish v => Rejected (thrown (type_error v))
            end
        end.
Proof.
  intros Hp Hf. eexists _, _. split.
  { exact (withFallback_primary_rejected _ _ _ _ _ _ _ Hp Hf). }
  split; [done|]. split; [done|]. split; [done|].
  destruct f as [value|fallbackError]; [done|].
  by destruct primaryError as [v1|x1], fallbackError as [v2|x2].
Qed.

End FallbackFacts.

(** C1, as stated, fails for an operation that fails on every call with the
    reason [undefined]: the [catch] block throws when it reads the message
    of the first failure, so there is one call instead of three and the
    result is that [TypeError], which holds neither the reason nor a number
    of attempts. *)
Lemma retry_stops_at_undefined_reason :
  (invoke_n rejects_with_undefined 3 tt).1
    = replicate 3 (Rejected (thrown_nullish undefined))
  ∧ retryOperation rejects_with_undefined 3 tt
    = (Some (Rejected (thrown (type_error undefined))), tt,
       [Console Log ["Attempt 1/3"]; Invoke TheOperation;
        Settled TheOperation (Rejected (thrown_nullish undefined))])
  ∧ invocations TheOperation (retryOperation rejects_with_undefined 3 tt).2 ≠ 3%nat.
Proof. split; [reflexivity|]. split; [reflexivity|]. vm_compute. lia. Qed.

(** C2, as stated, fails for an operation that fails once with the reason
    [undefined] and succeeds from then on: with [maxRetries = 3] the run ends
    at the first failure, rejected, after one call; the call that would
    succeed is never made. *)
Lemma retry_misses_success_after_undefined_reason :
  (invoke_n undefined_then_done 2 0%nat).1
    = [Rejected (thrown_nullish undefined); Fulfilled "done"]
  ∧ retryOperation undefined_then_done 3 0%nat
    = (Some (Rejected (thrown (type_error undefined))), 1%nat,
       [Console Log ["Attempt 1/3"]; Invoke TheOperation;
        Settled TheOperation (Rejected (thrown_nullish undefined))])
  ∧ (retryOperation undefined_then_done 3 0%nat).1.1 ≠ Some (Fulfilled (Some "done"))
  ∧ invocations TheOperation (retryOperation undefined_then_done 3 0%nat).2 ≠ 2%nat.
Proof.
  split; [reflexivity|]. split; [reflexivity|]. split; [discriminate|].
  vm_compute. lia.
Qed.

(** C3, as stated, fails when both operations fail with the strings ["A"] and
    ["B"]: the message of the result holds neither of them, because a string
    has no [message]; and when the primary fails with [undefined] the result
    is a [TypeError], not a composite of the two reasons. *)
Lemma both_failed_loses_reasons :
  withFallback (rejects_with_string "A") (rejects_with_string "B") tt
    = (Rejected (thrown (error_object (new_Error
         "Both operations failed. Primary: undefined, Fallback: undefined"))), tt,
       [Invoke PrimaryOperation;
        Settled PrimaryOperation (Rejected (thrown (without_message "A")));
        Console Warn ["Primary operation failed, trying fallback"];
        Invoke FallbackOperation;
        Settled FallbackOperation (Rejected (thrown (without_message "B")))])
  ∧ (withFallback rejects_with_undefined (rejects_with_string "B") tt).1.1
    = Rejected (thrown (type_error undefined)).
Proof. split; reflexivity. Qed.

(** C9, as stated, fails for the operation that fails with [undefined]: its
    first failed attempt is not the last one permitted ([attempt] is 1 and
    [maxRetries] is 3), and yet no wait and no further call follow it. *)
Lemma no_wait_after_undefined_reason :
  ticks (retryOperation rejects_with_undefined 3 tt).2 = [Call; Fail]
  ∧ timeouts (retryOperation rejects_with_undefined 3 tt).2 = []
  ∧ Wait (100 * 1) ∉ ticks (retryOperation rejects_with_undefined 3 tt).2.
Proof.
  split; [reflexivity|]. split; [reflexivity|].
  intros Hin. vm_compute in Hin.
  apply elem_of_cons in Hin as [Hin|Hin]; [discriminate|].
  apply elem_of_cons in Hin as [Hin|Hin]; [discriminate|].
  by apply elem_of_nil in Hin.
Qed.

(** C8, as stated, fails for [retryOperation]: when [unreliableOperation]
    fails each time, one call with [maxRetries = 3] calls it three times. *)
Lemma retry_invokes_operation_more_than_once :
  ¬ (invocations TheOperation
       (retryOperation unreliableOperation 3 (λ _, true)).2 ≤ 1)%nat.
Proof. vm_compute. lia. Qed.

(** C8, amended.  One call of [withFallback] calls the primary operation
    exactly once and the fallback at most once.  One call of
    [retryOperation] calls its operation at most [maxRetries] times, and at
    least once when [maxRetries] is 1 or more. *)
Theorem invocations_per_executor_call {T W : Type}
    (operation primaryOperation fallbackOperation : @Operation T W)
    (maxRetries : Z) (w : W) :
  (Z.to_nat (Z.min 1 maxRetries)
   ≤ invocations TheOperation (retryOperation operation maxRetries w).2
   ≤ Z.to_nat maxRetries)%nat
  ∧ invocations PrimaryOperation (withFallback primaryOperation fallbackOperation w).2 = 1%nat
  ∧ (invocations FallbackOperation (withFallback primaryOperation fallbackOperation w).2 ≤ 1)%nat.
Proof.
  split; [apply retryOperation_invocations | apply withFallback_invocations].
Qed.

(** The theorems above at the operations of [errorRecovery]. *)

Lemma retry_exhausted_after_maxRetries_witness :
  let failure := error_object (new_Error "Unreliable operation failed") in
  1 ≤ 3 ∧
  (invoke_n unreliableOperation (Z.to_nat 3) (λ _, true)).1 =
    Rejected ∘ thrown <$> [failure; failure; failure] ∧
  ∃ error tr,
    last [failure; failure; failure] = Some error ∧
    retryOperation unreliableOperation 3 (λ _, true) =
      (Some (Rejected (thrown (error_object (new_Error
         ("Operation failed after " +:+ show 3 +:+ " attempts: "
            +:+ text_of (message_of error)))))),
       (invoke_n unreliableOperation (Z.to_nat 3) (λ _, true)).2, tr) ∧
    invocations TheOperation tr = Z.to_nat 3 ∧
    timeouts tr = (λ i, 100 * i) <$> seqZ 1 (3 - 1) ∧
    (3 = 1 → invocations TheOperation tr = 1%nat ∧ timeouts tr = []).
Proof.
  intros failure. split; [lia|]. split; [reflexivity|].
  apply (retry_exhausted_after_maxRetries unreliableOperation 3 (λ _, true)
           [failure; failure; failure]);
    [lia | reflexivity].
Defined.

Lemma retry_returns_first_success_witness :
  let failure := error_object (new_Error "Unreliable operation failed") in
  let random := λ n : nat, bool_decide (n < 2)%nat in
  Z.of_nat (length [failure; failure]) < 3 ∧
  (invoke_n unreliableOperation (S (length [failure; failure])) random).1 =
    (Rejected ∘ thrown <$> [failure; failure])
    ++ [Fulfilled "Unreliable operation succeeded"] ∧
  ∃ tr,
    retryOperation unreliableOperation 3 random =
      (Some (Fulfilled (Some "Unreliable operation succeeded")),
       (invoke_n unreliableOperation (S (length [failure; failure])) random).2, tr) ∧
    invocations TheOperation tr = S (length [failure; failure]) ∧
    ticks tr = backoff_ticks 0 (length [failure; failure]) ++ [Call; Succeed].
Proof.
  intros failure random. split; [simpl; lia|]. split; [reflexivity|].
  apply (retry_returns_first_success unreliableOperation 3 random
           [failure; failure] "Unreliable operation succeeded");
    [simpl; lia | reflexivity].
Defined.

Lemma fallback_not_invoked_when_primary_succeeds_witness :
  asyncOperation "success" 100 tt = (Fulfilled "Async operation completed after 100ms", tt) ∧
  ∃ tr,
    withFallback (asyncOperation "success" 100) (asyncOperation "failure" 50) tt
      = (Fulfilled "Async operation completed after 100ms", tt, tr) ∧
    tr = [Invoke PrimaryOperation;
          Settled PrimaryOperation (Fulfilled "Async operation completed after 100ms")] ∧
    invocations PrimaryOperation tr = 1%nat ∧
    invocations FallbackOperation tr = 0%nat.
Proof.
  split; [reflexivity|].
  apply (fallback_not_invoked_when_primary_succeeds
           (asyncOperation "success" 100) (asyncOperation "failure" 50) tt
           "Async operation completed after 100ms" tt).
  reflexivity.
Defined.

Lemma fallback_invoked_once_after_primary_failure_witness :
  let primaryError := thrown_Error "Async operation failed after 100ms" in
  let fallbackError := thrown_Error "Async operation failed after 50ms" in
  asyncOperation "failure" 100 tt = (Rejected primaryError, tt) ∧
  asyncOperation "failure" 50 tt = (Rejected fallbackError, tt) ∧
  ∃ r tr,
    withFallback (asyncOperation "failure" 100) (asyncOperation "failure" 50) tt
      = (r, tt, tr) ∧
    tr = [Invoke PrimaryOperation; Settled PrimaryOperation (Rejected primaryError);
          Console Warn ["Primary operation failed, trying fallback"];
          Invoke FallbackOperation; Settled FallbackOperation (Rejected fallbackError)] ∧
    invocations PrimaryOperation tr = 1%nat ∧
    invocations FallbackOperation tr = 1%nat ∧
    r = Rejected (thrown (error_object (new_Error
          "Both operations failed. Primary: Async operation failed after 100ms, Fallback: Async operation failed after 50ms"))).
Proof.
  intros primaryError fallbackError.
  split; [reflexivity|]. split; [reflexivity|].
  apply (fallback_invoked_once_after_primary_failure
           (asyncOperation "failure" 100) (asyncOperation "failure" 50) tt
           primaryError tt (Rejected fallbackError) tt);
    reflexivity.
Defined.

End TryCatchFacts.


(** * Properties of the tracker *)

Module PromisesFacts.
Import Promises.

Section TrackerFacts.

Context {T E : Type}.
Implicit Types (L : Loop T E) (this : AsyncDebugging T E) (s : Settlement T E)
  (name : string) (script : list (Command T E)) (f : Factory T E).

(** Case analysis on membership in the lists a step builds. *)
Ltac split_elem_of :=
  repeat match goal with
  | H : _ ∈ _ ++ _ |- _ => apply elem_of_app in H as [H|H]
  | H : _ ∈ [_] |- _ => apply list_elem_of_singleton in H
  | H : _ ∈ [] |- _ => by apply elem_of_nil in H
  | H : _ ∈ _ <$> _ |- _ => apply list_elem_of_fmap in H as (? & H & _)
  end.

(** *** What the steps of a session do to the state *)

Lemma run_snoc script c L : run (script ++ [c]) L = exec (run script L) c.
Proof. unfold run. by rewrite foldl_app. Qed.

Lemma run_app script1 script2 L : run (script1 ++ script2) L = run script2 (run script1 L).
Proof. unfold run. by rewrite foldl_app. Qed.

Lemma registered_snoc script c :
  registered (script ++ [c]) = registered script ++ registered [c].
Proof. apply omap_app. Qed.

Lemma exec_create_throwing name exception L :
  exec L (Create name (Throwing exception)) = L.
Proof. done. Qed.

Lemma exec_create_immediate name s L :
  exec L (Create name (Immediate s)) =
  fire (fresh L) s name
    (with_this (pendingOperations_add name)
       (mark_settled (fresh L) s (new_promise L).2)).
Proof.
  unfold exec, createTrackedPromise, call, attach. simpl.
  by rewrite lookup_insert_eq.
Qed.

Lemma exec_create_delayed name delay s L :
  exec L (Create name (Delayed delay s)) =
  attach (fresh L) name
    (with_this (pendingOperations_add name)
       (setTimeout (fresh L) s delay (new_promise L).2)).
Proof. done. Qed.

(** Firing the chains that waited on a promise. *)
Lemma foldl_fire p s (rs : list (nat * string)) L :
  foldl (λ L r, fire p s r.2 L) L rs =
  {| this := this L; now := now L; fresh := fresh L; settled := settled L;
     reactions := reactions L;
     microtasks := microtasks L ++ ((λ r, RunThen p r.2 s) <$> rs);
     timers := timers L;
     log := log L ++ ((λ r, OperationSettled p r.2 s) <$> rs) |}.
Proof.
  revert L. induction rs as [|r rs IH]; intros L.
  - simpl. rewrite !app_nil_r. by destruct L.
  - simpl. rewrite IH. simpl. by rewrite <- !app_assoc.
Qed.

(** *** Every registered name waits or has its record *)

Lemma omap_job_waiting_RunThen p s (rs : list (nat * string)) :
  omap job_waiting ((λ r, RunThen (T:=T) (E:=E) p r.2 s) <$> rs) = rs.*2.
Proof. induction rs as [|r rs IH]; [done|]. csimpl. by f_equal. Qed.

Lemma tracks_start : tracks [] (start (T:=T) (E:=E)).
Proof. split; [done|]. intros _ x. simpl. set_solver. Qed.

Lemma tracks_create reg name f L :
  tracks reg L → tracks (reg ++ registered [Create name f]) (exec L (Create name f)).
Proof.
  intros [Hperm Hpending]. destruct f as [exception|s|delay s].
  - rewrite exec_create_throwing. simpl. rewrite app_nil_r. by split.
  - rewrite exec_create_immediate. unfold tracks, waiting, completed_names in *.
    simpl in *. rewrite omap_app. simpl. split.
    + rewrite <- Hperm. solve_Permutation.
    + intros [Hnodup _]%NoDup_app x. specialize (Hpending Hnodup x).
      rewrite elem_of_union, elem_of_singleton, Hpending, !elem_of_app,
        list_elem_of_singleton.
      tauto.
  - rewrite exec_create_delayed. unfold attach, tracks, waiting, completed_names in *.
    simpl in *. destruct (settled L !! fresh L) as [s'|]; simpl.
    + rewrite omap_app. simpl. split.
      * rewrite <- Hperm. solve_Permutation.
      * intros [Hnodup _]%NoDup_app x. specialize (Hpending Hnodup x).
        rewrite elem_of_union, elem_of_singleton, Hpending, !elem_of_app,
          list_elem_of_singleton.
        tauto.
    + rewrite fmap_app. simpl. split.
      * rewrite <- Hperm. solve_Permutation.
      * intros [Hnodup _]%NoDup_app x. specialize (Hpending Hnodup x).
        rewrite elem_of_union, elem_of_singleton, Hpending, !elem_of_app,
          list_elem_of_singleton.
        tauto.
Qed.

(** A handler that writes a record takes its name out of the pending set;
    without repeated names no other chain waits under that name. *)
Lemma tracks_record reg (tracker : AsyncDebugging T E)
    (before after : list string) name r L' :
  (before ++ name :: after) ++ (record_name <$> completedOperations tracker) ≡ₚ reg →
  (NoDup reg → ∀ x, x ∈ pendingOperations tracker ↔ x ∈ before ++ name :: after) →
  record_name r = name →
  waiting L' = before ++ after →
  Promises.this L' = completedOperations_push r (pendingOperations_delete name tracker) →
  tracks reg L'.
Proof.
  intros Hperm Hpending Hr Hwaiting Hthis. unfold tracks, completed_names.
  rewrite Hwaiting, Hthis. simpl. rewrite fmap_app. simpl. rewrite Hr. split.
  - rewrite <- Hperm. solve_Permutation.
  - intros Hnodup x. specialize (Hpending Hnodup x).
    rewrite <- Hperm in Hnodup.
    apply NoDup_app in Hnodup as [Hnodup _].
    apply NoDup_app in Hnodup as (_ & Hbefore & Hafter%NoDup_cons).
    rewrite elem_of_difference, elem_of_singleton, Hpending, !elem_of_app, elem_of_cons.
    destruct Hafter as [Hafter _]. specialize (Hbefore name).
    rewrite elem_of_cons in Hbefore.
    destruct (decide (x = name)) as [->|]; [tauto|]. tauto.
Qed.

Lemma tracks_turn reg L : tracks reg L → tracks reg (turn L).
Proof.
  intros [Hperm Hpending]. unfold turn.
  destruct (microtasks L) as [|j rest] eqn:Hjobs.
  - destruct (timers L) as [|t ts]; [by split|].
    unfold settle_promise. simpl.
    destruct (settled L !! target t) as [s'|].
    + unfold tracks, waiting, completed_names in *. simpl. by rewrite Hjobs in *.
    + rewrite foldl_fire. unfold tracks, waiting, completed_names in *. simpl.
      rewrite Hjobs in *. simpl in *. rewrite omap_job_waiting_RunThen.
      assert ((filter (λ r, r.1 ≠ target t) (reactions L)).*2
                ++ (filter (λ r, r.1 = target t) (reactions L)).*2
              ≡ₚ (reactions L).*2) as Hsplit.
      { rewrite <- fmap_app. f_equiv.
        rewrite Permutation_app_comm. apply filter_app_complement. }
      rewrite app_nil_r in *. split.
      * by rewrite Hsplit.
      * intros Hnodup x. rewrite (Hpending Hnodup x). by rewrite Hsplit.
  - unfold tracks, waiting, completed_names in Hperm, Hpending.
    rewrite Hjobs in Hperm, Hpending.
    destruct j as [p name [v|e] | p name [v|e]]; simpl in *.
    + eapply (tracks_record _ _ ((reactions L).*2) (omap job_waiting rest) name
                (fulfilled name v)); try done.
      unfold waiting. simpl. rewrite omap_app. simpl. by rewrite app_nil_r.
    + unfold tracks, waiting, completed_names. simpl. rewrite omap_app. simpl. split.
      * rewrite <- Hperm. solve_Permutation.
      * intros Hnodup x. rewrite (Hpending Hnodup x).
        assert ((reactions L).*2 ++ omap job_waiting rest ++ [name]
                ≡ₚ (reactions L).*2 ++ name :: omap job_waiting rest) as ->
          by solve_Permutation.
        done.
    + unfold tracks, waiting, completed_names. simpl. by split.
    + by eapply (tracks_record _ _ ((reactions L).*2) (omap job_waiting rest) name
                   (rejected name e)).
Qed.

Lemma tracks_run script : tracks (registered script) (run script (start (T:=T) (E:=E))).
Proof.
  induction script as [|c script IH] using rev_ind; [apply tracks_start|].
  rewrite run_snoc, registered_snoc. destruct c as [name f|].
  - by apply tracks_create.
  - simpl. rewrite app_nil_r. by apply tracks_turn.
Qed.

(** One turn of the loop leaves the tracker alone or runs one handler, which
    takes the name out of the pending set and appends the record. *)
Lemma turn_bookkeeping L :
  Promises.this (turn L) = Promises.this L ∨
  ∃ name s, Promises.this (turn L) =
    completedOperations_push (record_of name s)
      (pendingOperations_delete name (Promises.this L)).
Proof.
  unfold turn. destruct (microtasks L) as [|j rest].
  - destruct (timers L) as [|t ts]; [by left|].
    unfold settle_promise. simpl. destruct (settled L !! target t); [by left|].
    rewrite foldl_fire. by left.
  - destruct j as [p name [v|e] | p name [v|e]]; simpl; eauto.
    + right. by exists name, (Fulfilled v).
    + right. by exists name, (Rejected e).
Qed.

Lemma create_bookkeeping name f L :
  completedOperations (Promises.this (exec L (Create name f)))
  = completedOperations (Promises.this L).
Proof.
  destruct f as [exception|s|delay s]; [done| |].
  - by rewrite exec_create_immediate.
  - rewrite exec_create_delayed. unfold attach. simpl.
    by destruct (settled L !! fresh L).
Qed.

(** *** The chain hands the settlement on *)

Lemma chain_passes_settlement name s (tracker : AsyncDebugging T E) :
  catch_ (onRejected name) ((then_ (onFulfilled name) s tracker).1)
         ((then_ (onFulfilled name) s tracker).2)
  = (s, completedOperations_push (record_of name s)
          (pendingOperations_delete name tracker)).
Proof. by destruct s. Qed.

Lemma elem_of_insert_timer (t t' : Timer T E) ts :
  t' ∈ insert_timer t ts ↔ t' = t ∨ t' ∈ ts.
Proof.
  induction ts as [|t0 ts IH]; simpl.
  - rewrite list_elem_of_singleton, elem_of_nil. tauto.
  - case_bool_decide; rewrite !elem_of_cons; [rewrite IH|]; tauto.
Qed.

Lemma faithful_start : faithful (start (T:=T) (E:=E)).
Proof.
  unfold faithful. simpl. split; [|split; [|split; [|split]]].
  - intros ??? []%elem_of_nil.
  - intros ??? []%elem_of_nil.
  - intros ??? []%elem_of_nil.
  - intros p [? Hp]. by rewrite lookup_empty in Hp.
  - intros ? []%elem_of_nil.
Qed.

Lemma faithful_create name f L : faithful L → faithful (exec L (Create name f)).
Proof.
  intros (Hlog & Hthen & Hcatch & Hfresh & Htimers).
  assert (settled L !! fresh L = None) as Hnew.
  { destruct (settled L !! fresh L) eqn:Hp; [|done].
    specialize (Hfresh (fresh L)). rewrite Hp in Hfresh.
    pose proof (Hfresh (mk_is_Some _ _ eq_refl)). lia. }
  destruct f as [exception|s|delay s].
  - by rewrite exec_create_throwing.
  - rewrite exec_create_immediate. unfold faithful. simpl.
    split; [|split; [|split; [|split]]].
    + intros p n s' [Hin|Hin]%elem_of_app.
      * destruct (Hlog _ _ _ Hin) as [Hp ?]. split; [|done].
        rewrite lookup_insert_ne; [done|]. intros <-. congruence.
      * apply list_elem_of_singleton in Hin. discriminate.
    + intros p n s' [Hin|Hin]%elem_of_app.
      * rewrite lookup_insert_ne; [by eapply Hthen|].
        intros <-. specialize (Hthen _ _ _ Hin). congruence.
      * apply list_elem_of_singleton in Hin. injection Hin as -> -> ->.
        apply lookup_insert_eq.
    + intros p n s' [Hin|Hin]%elem_of_app.
      * destruct (Hcatch _ _ _ Hin) as [Hp ?]. split; [|done].
        rewrite lookup_insert_ne; [done|]. intros <-. congruence.
      * apply list_elem_of_singleton in Hin. discriminate.
    + intros p [s' Hp]. destruct (decide (p = fresh L)) as [->|Hne]; [lia|].
      rewrite lookup_insert_ne in Hp by done.
      pose proof (Hfresh p (mk_is_Some _ _ Hp)). lia.
    + intros t Hin. specialize (Htimers t Hin). lia.
  - rewrite exec_create_delayed. unfold attach. simpl. rewrite Hnew.
    unfold faithful. simpl. split; [|split; [|split; [|split]]]; try done.
    + intros p Hp. specialize (Hfresh p Hp). lia.
    + intros t [->|Hin]%elem_of_insert_timer; simpl; [lia|].
      specialize (Htimers t Hin). lia.
Qed.

Lemma faithful_turn L : faithful L → faithful (turn L).
Proof.
  intros HL. unfold turn.
  destruct (microtasks L) as [|j rest] eqn:Hjobs.
  - destruct (timers L) as [|t ts] eqn:Hts; [done|].
    destruct HL as (Hlog & Hthen & Hcatch & Hfresh & Htimers).
    rewrite ?Hjobs, ?Hts in *.
    unfold settle_promise. simpl.
    destruct (settled L !! target t) as [s'|] eqn:Hp.
    + unfold faithful. simpl. split; [|split; [|split; [|split]]]; try done.
      intros t' Hin. apply Htimers. by right.
    + rewrite foldl_fire. unfold faithful. simpl.
      split; [|split; [|split; [|split]]].
      * intros p n s' [Hin|Hin]%elem_of_app.
        -- destruct (Hlog _ _ _ Hin) as [Hq ?]. split; [|done].
           rewrite lookup_insert_ne; [done|]. intros <-. congruence.
        -- apply list_elem_of_fmap in Hin as (r & Hr & _). discriminate.
      * intros p n s' Hin. apply list_elem_of_fmap in Hin as (r & Hr & _).
        injection Hr as -> -> ->. apply lookup_insert_eq.
      * intros p n s' Hin. apply list_elem_of_fmap in Hin as (r & Hr & _).
        discriminate.
      * intros p [s' Hq]. destruct (decide (p = target t)) as [->|Hne].
        -- apply Htimers. by left.
        -- rewrite lookup_insert_ne in Hq by done. by apply Hfresh.
      * intros t' Hin. apply Htimers. by right.
  - destruct HL as (Hlog & Hthen & Hcatch & Hfresh & Htimers).
    rewrite ?Hjobs in *.
    destruct j as [p name [v|e] | p name [v|e]]; unfold faithful; simpl;
      (split; [|split; [|split; [|split]]]); try done;
      intros q n s' Hin; split_elem_of; try discriminate;
      try (injection Hin as -> -> ->).
    all: try (eapply Hthen; right; exact Hin).
    all: try (destruct (Hlog _ _ _ Hin) as [? ?]; split; [done|];
              rewrite ?elem_of_app; by auto).
    all: try (destruct (Hcatch q n s' ltac:(right; exact Hin)) as [? ?];
              split; [done|]; intros; rewrite ?elem_of_app; by auto).
    all: try (split; [eapply Hthen; by left|]; intros; simpl in *;
              rewrite ?elem_of_app, ?list_elem_of_singleton; by auto).
    all: try (destruct (Hcatch p name _ ltac:(by left)) as [? ?];
              split; [done|]; simpl in *;
              rewrite ?elem_of_app, ?list_elem_of_singleton; by auto).
Qed.
Lemma faithful_run script : faithful (run script (start (T:=T) (E:=E))).
Proof.
  induction script as [|c script IH] using rev_ind; [apply faithful_start|].
  rewrite run_snoc. destruct c as [name f|].
  - by apply faithful_create.
  - by apply faithful_turn.
Qed.


(** *** Every settled chain resurfaces *)

Lemma accounted_fire p s name L : accounted L → accounted (fire p s name L).
Proof.
  intros HL q n s' Hin. simpl in *. rewrite !elem_of_app. split_elem_of.
  - destruct (HL q n s' Hin) as [?|[?|?]]; auto.
  - injection Hin as -> -> ->. left. right. apply list_elem_of_here.
Qed.

Lemma accounted_exec c L : accounted L → accounted (exec L c).
Proof.
  intros HL. destruct c as [name [exception|s|delay s]|].
  - done.
  - rewrite exec_create_immediate. by apply accounted_fire.
  - rewrite exec_create_delayed. unfold attach. simpl.
    destruct (settled L !! fresh L) as [s'|]; [by apply accounted_fire|done].
  - simpl. unfold turn. destruct (microtasks L) as [|j rest] eqn:Hjobs.
    + destruct (timers L) as [|t ts]; [done|].
      unfold settle_promise. simpl.
      unfold accounted in HL. rewrite Hjobs in HL.
      destruct (settled L !! target t) as [s'|]; [done|].
      rewrite foldl_fire. intros q n s' Hin. simpl in *.
      apply elem_of_app in Hin as [Hin|Hin].
      * destruct (HL q n s' Hin) as [[]%elem_of_nil|[[]%elem_of_nil|?]].
        right; right. apply elem_of_app. by left.
      * left. apply list_elem_of_fmap in Hin as (r & Hr & Hin).
        injection Hr as -> -> ->. apply list_elem_of_fmap. by exists r.
    + unfold accounted in *. rewrite Hjobs in HL.
      destruct j as [p name [v|e] | p name [v|e]]; simpl;
        intros q n s' Hin; split_elem_of; try discriminate;
        destruct (HL q n s' Hin) as [Hjob|[Hjob|?]];
        rewrite ?elem_of_app; auto;
        apply elem_of_cons in Hjob as [Hjob|?]; auto; try discriminate;
        injection Hjob as -> -> ->;
        rewrite ?list_elem_of_singleton; auto.
Qed.

Lemma accounted_run script : accounted (run script (start (T:=T) (E:=E))).
Proof.
  induction script as [|c script IH] using rev_ind; [by intros ??? []%elem_of_nil|].
  rewrite run_snoc. by apply accounted_exec.
Qed.

Lemma turns_add (a b : nat) L : turns (a + b) L = turns b (turns a L).
Proof. revert L. induction a as [|a IH]; intros L; [done|]. simpl. apply IH. Qed.

(** Running the job at the head of the queue. *)
Lemma turn_head L (j : Job T E) rest :
  microtasks L = j :: rest →
  log L `prefix_of` log (turn L) ∧
  match j with
  | RunThen p name s => microtasks (turn L) = rest ++ [RunCatch p name s]
  | RunCatch p name s =>
      microtasks (turn L) = rest ∧ Resurfaced p name s ∈ log (turn L)
  end.
Proof.
  intros Hjobs. unfold turn. rewrite Hjobs.
  destruct j as [p name [v|e] | p name [v|e]]; simpl; split; try done;
    try (by apply prefix_app_r); split; try done;
    apply elem_of_app; right; apply list_elem_of_here.
Qed.

(** The queue is served first in, first out. *)
Lemma queue_advances (pre : list (Job T E)) :
  ∀ L j post,
    microtasks L = pre ++ j :: post →
    ∃ extra, microtasks (turns (length pre) L) = j :: post ++ extra
             ∧ log L `prefix_of` log (turns (length pre) L).
Proof.
  induction pre as [|j0 pre IH]; intros L j post Hjobs.
  - exists []. simpl. by rewrite app_nil_r.
  - simpl in *. destruct (turn_head L j0 _ Hjobs) as [Hlog Hnext].
    assert (∃ extra0, microtasks (turn L) = pre ++ j :: (post ++ extra0))
      as [extra0 Hturn].
    { destruct j0 as [p name s | p name s].
      - exists [RunCatch p name s]. by rewrite Hnext, <- app_assoc.
      - exists []. destruct Hnext as [-> _]. by rewrite app_nil_r. }
    destruct (IH (turn L) j (post ++ extra0) Hturn) as (extra & Hqueue & Hlog').
    exists (extra0 ++ extra). split; [by rewrite Hqueue, <- app_assoc|].
    by etrans.
Qed.

Lemma queued_catch_resurfaces L p name s :
  RunCatch p name s ∈ microtasks L →
  ∃ k, Resurfaced p name s ∈ log (turns k L).
Proof.
  intros (pre & post & Hjobs)%list_elem_of_split.
  destruct (queue_advances pre L _ post Hjobs) as (extra & Hqueue & _).
  exists (length pre + 1)%nat. rewrite turns_add. simpl.
  by destruct (turn_head _ _ _ Hqueue) as (_ & _ & ?).
Qed.

Lemma queued_then_resurfaces L p name s :
  RunThen p name s ∈ microtasks L →
  ∃ k, Resurfaced p name s ∈ log (turns k L).
Proof.
  intros (pre & post & Hjobs)%list_elem_of_split.
  destruct (queue_advances pre L _ post Hjobs) as (extra & Hqueue & _).
  destruct (turn_head _ _ _ Hqueue) as (_ & Hnext).
  destruct (queued_catch_resurfaces (turn (turns (length pre) L)) p name s)
    as [k Hk].
  { rewrite Hnext. apply elem_of_app. right. apply list_elem_of_here. }
  exists (length pre + S k)%nat. by rewrite turns_add.
Qed.

(** C10. A factory that throws makes [createTrackedPromise] throw the same
    exception, and the call leaves the state as the factory left it: the
    name is not added and no handler is attached, so no record can follow.
    A session goes on as if the call had not been made. *)
Theorem factory_exception_propagates name (promiseFactory : PromiseFactory T E)
    L (exception : E) L' :
  promiseFactory L = (Throws exception, L') →
  createTrackedPromise name promiseFactory L = (Throws exception, L')
  ∧ ∀ script, run (Create name (Throwing exception) :: script) L = run script L.
Proof.
  intros Hthrows. split; [|done].
  unfold createTrackedPromise. by rewrite Hthrows.
Qed.

(** *** The order of the records *)

Lemma settlement_order_fire p s (rs : list (nat * string)) :
  omap (λ e : Event T E, match e with
                 | OperationSettled _ name s => Some (record_of name s)
                 | Resurfaced _ _ _ => None
                 end) ((λ r, OperationSettled p r.2 s) <$> rs)
  = (λ r, record_of r.2 s) <$> rs.
Proof. induction rs as [|r rs IH]; [done|]. csimpl. by f_equal. Qed.

Lemma fired_jobs_by_status p s (rs : list (nat * string)) :
  List.filter is_fulfilled_record ((λ r, record_of r.2 s) <$> rs)
  = omap job_fulfilled ((λ r, RunThen p r.2 s) <$> rs)
  ∧ List.filter is_rejected_record ((λ r, record_of r.2 s) <$> rs)
    = omap job_rejected_then ((λ r, RunThen p r.2 s) <$> rs)
  ∧ omap job_rejected_catch ((λ r, RunThen (T:=T) (E:=E) p r.2 s) <$> rs) = [].
Proof.
  destruct s as [v|e]; induction rs as [|r rs (IH1 & IH2 & IH3)]; try done;
    rewrite !fmap_cons; simpl.
  - split; [f_equal; exact IH1 | split; [exact IH2 | exact IH3]].
  - split; [exact IH1 | split; [f_equal; exact IH2 | exact IH3]].
Qed.

Lemma ordered_by_status_start : ordered_by_status (start (T:=T) (E:=E)).
Proof. done. Qed.

Lemma ordered_by_status_fire p s name L :
  ordered_by_status L → ordered_by_status (fire p s name L).
Proof.
  intros [Hful Hrej]. unfold ordered_by_status, settlement_order in *. simpl.
  rewrite !omap_app, !List.filter_app, Hful, Hrej.
  destruct s as [v|e]; simpl; rewrite ?app_nil_r, <- ?app_assoc; done.
Qed.

Lemma ordered_by_status_exec c L :
  ordered_by_status L → ordered_by_status (exec L c).
Proof.
  intros HL. destruct c as [name [exception|s|delay s]|].
  - done.
  - rewrite exec_create_immediate. by apply ordered_by_status_fire.
  - rewrite exec_create_delayed. unfold attach. simpl.
    destruct (settled L !! fresh L) as [s'|]; [by apply ordered_by_status_fire|done].
  - simpl. unfold turn. destruct (microtasks L) as [|j rest] eqn:Hjobs.
    + destruct (timers L) as [|t ts]; [done|].
      unfold settle_promise. simpl.
      destruct HL as [Hful Hrej]. rewrite Hjobs in Hful, Hrej.
      destruct (settled L !! target t) as [s'|]; [done|].
      rewrite foldl_fire. unfold ordered_by_status, settlement_order in *. simpl.
      rewrite !omap_app, !List.filter_app, Hful, Hrej, settlement_order_fire.
      destruct (fired_jobs_by_status (target t) (outcome t)
                  (filter (λ r, r.1 = target t) (reactions L))) as (-> & -> & ->).
      simpl. by rewrite !app_nil_r.
    + destruct HL as [Hful Hrej]. rewrite Hjobs in Hful, Hrej.
      unfold ordered_by_status, settlement_order in *.
      destruct j as [p name [v|e] | p name [v|e]]; simpl in *;
        rewrite ?omap_app, ?List.filter_app, Hful, Hrej; simpl;
        rewrite ?app_nil_r, <- ?app_assoc; done.
Qed.

Lemma ordered_by_status_run script :
  ordered_by_status (run script (start (T:=T) (E:=E))).
Proof.
  induction script as [|c script IH] using rev_ind; [apply ordered_by_status_start|].
  rewrite run_snoc. by apply ordered_by_status_exec.
Qed.

Lemma completed_append_only c L :
  completedOperations (Promises.this L)
    `prefix_of` completedOperations (Promises.this (exec L c)).
Proof.
  destruct c as [name f|].
  - by rewrite create_bookkeeping.
  - simpl. destruct (turn_bookkeeping L) as [->|(name & s & ->)]; [done|].
    simpl. by apply prefix_app_r.
Qed.

Lemma Permutation_three {A} (a b c : A) (l : list A) :
  l ≡ₚ [a; b; c] →
  l = [a; b; c] ∨ l = [a; c; b] ∨ l = [b; a; c]
  ∨ l = [b; c; a] ∨ l = [c; a; b] ∨ l = [c; b; a].
Proof.
  intros Hl. symmetry in Hl. apply permutations_Permutation in Hl.
  simpl in Hl. rewrite !elem_of_cons, elem_of_nil in Hl. tauto.
Qed.

(** A timer callback that settles a promise with one chain on it, and the
    two jobs of that chain. *)
Lemma timer_round L (t : Timer T E) ts name :
  microtasks L = [] →
  timers L = t :: ts →
  settled L !! target t = None →
  filter (λ r, r.1 = target t) (reactions L) = [(target t, name)] →
  turn (turn (turn L)) =
    {| this := completedOperations_push (record_of name (outcome t))
                 (pendingOperations_delete name (Promises.this L));
       now := Z.max (now L) (due t);
       fresh := fresh L;
       settled := <[target t := outcome t]> (settled L);
       reactions := filter (λ r, r.1 ≠ target t) (reactions L);
       microtasks := [];
       timers := ts;
       log := log L ++ [OperationSettled (target t) name (outcome t);
                        Resurfaced (target t) name (outcome t)] |}.
Proof.
  intros Hjobs Hts Hp Hchain.
  unfold turn at 3. rewrite Hjobs, Hts. unfold settle_promise. simpl.
  rewrite Hp, Hchain. simpl.
  unfold turn at 2. simpl. destruct (outcome t) as [v|e]; simpl.
  - unfold turn. simpl. unfold record_event, with_this. simpl.
    by rewrite <- app_assoc.
  - unfold turn. simpl. unfold record_event, with_this. simpl.
    by rewrite <- app_assoc.
Qed.

Lemma run_three_registrations (a b c : TimedOperation T E) :
  run (track <$> [a; b; c]) start =
    {| this := {| requestId := 0;
                  pendingOperations :=
                    {[op_name c]} ∪ ({[op_name b]} ∪ ({[op_name a]} ∪ ∅));
                  completedOperations := [] |};
       now := 0; fresh := 3%nat; settled := ∅;
       reactions := [(0%nat, op_name a); (1%nat, op_name b); (2%nat, op_name c)];
       microtasks := [];
       timers :=
         insert_timer
           {| due := 0 + timer_delay (op_delay c); target := 2%nat; outcome := op_outcome c |}
           (insert_timer
              {| due := 0 + timer_delay (op_delay b); target := 1%nat;
                 outcome := op_outcome b |}
              [ {| due := 0 + timer_delay (op_delay a); target := 0%nat;
                   outcome := op_outcome a |} ]);
       log := [] |}.
Proof. done. Qed.

Lemma run_turns (n : nat) L : run (replicate n Turn) L = turns n L.
Proof. revert L. induction n as [|n IH]; intros L; [done|]. simpl. apply IH. Qed.

(** Three operations on timers that run with increasing delays, registered
    in any order at the start of a session: nine turns (a timer callback and
    two jobs for each) leave the loop idle with the three records in the
    order of the delays. *)
Lemma three_timed_operations (o1 o2 o3 : TimedOperation T E) ops :
  timer_delay (op_delay o1) < timer_delay (op_delay o2) < timer_delay (op_delay o3) →
  ops ≡ₚ [o1; o2; o3] →
  let L := run ((track <$> ops) ++ replicate 9 Turn) start in
  idle L = true
  ∧ pendingOperations (Promises.this L) = ∅
  ∧ completedOperations (Promises.this L)
    = [record_of (op_name o1) (op_outcome o1);
       record_of (op_name o2) (op_outcome o2);
       record_of (op_name o3) (op_outcome o3)].
Proof.
  intros Hd Hops L. subst L.
  apply Permutation_three in Hops as [->|[->|[->|[->|[->| ->]]]]];
    rewrite run_app, run_three_registrations, run_turns;
    repeat (cbn [insert_timer due];
            (rewrite bool_decide_eq_true_2 by lia)
            || (rewrite bool_decide_eq_false_2 by lia));
    cbn [turns];
    do 3 (lazymatch goal with
          | |- context [turn (turn (turn (Build_Loop ?a ?b ?c ?d ?e ?f ?g ?h)))] =>
              erewrite (timer_round (Build_Loop a b c d e f g h));
                [| reflexivity | reflexivity | by vm_compute | reflexivity ]
          end;
          cbn [Promises.this now fresh settled reactions microtasks timers log
                 outcome target due]);
    (split; [done|]; split; [|done]);
    simpl; apply set_eq; intros x;
    rewrite !elem_of_difference, !elem_of_union, !elem_of_singleton, elem_of_empty;
    tauto.
Qed.

(** *** Sessions on timers *)

Lemma filter_absent_key (p : nat) (rs : list (nat * string)) :
  p ∉ rs.*1 → filter (λ r, r.1 = p) rs = [].
Proof.
  induction rs as [|[q name] rs IH]; [done|].
  rewrite fmap_cons, not_elem_of_cons, filter_cons. simpl. intros [Hq Hrs].
  rewrite decide_False by done. by apply IH.
Qed.

Lemma filter_unique_key (p : nat) (rs : list (nat * string)) :
  NoDup rs.*1 →
  filter (λ r, r.1 = p) rs = [] ∨ ∃ name, filter (λ r, r.1 = p) rs = [(p, name)].
Proof.
  induction rs as [|[q name] rs IH]; [by left|].
  rewrite fmap_cons, NoDup_cons. intros [Hq Hnodup]. rewrite filter_cons. simpl.
  case_decide as Hp.
  - subst q. right. exists name. f_equal. by apply filter_absent_key.
  - by apply IH.
Qed.

Lemma one_at_a_time_start : one_at_a_time (start (T:=T) (E:=E)).
Proof.
  unfold one_at_a_time. simpl. split; [constructor|]. split; [|done].
  intros r []%elem_of_nil.
Qed.

Lemma one_at_a_time_exec c L :
  from_timer c = true → faithful L → one_at_a_time L → one_at_a_time (exec L c).
Proof.
  intros Hc (_ & _ & _ & Hfresh & _) (Hnodup & Hkeys & Horder).
  destruct c as [name [exception|s|delay s]|]; [done|done| |].
  - rewrite exec_create_delayed. unfold attach. simpl.
    destruct (settled L !! fresh L) as [s'|] eqn:Hp.
    { pose proof (Hfresh (fresh L) (mk_is_Some _ _ Hp)). lia. }
    unfold one_at_a_time. simpl. rewrite fmap_app. simpl.
    split; [|split; [|done]].
    + apply NoDup_app. split; [done|]. split; [|apply NoDup_singleton].
      intros q Hq ->%list_elem_of_singleton.
      apply list_elem_of_fmap in Hq as (r & Heq & Hr). specialize (Hkeys r Hr). lia.
    + intros r [Hr| ->%list_elem_of_singleton]%elem_of_app; simpl; [|lia].
      specialize (Hkeys r Hr). lia.
  - simpl. unfold turn. destruct (microtasks L) as [|j rest] eqn:Hjobs.
    + destruct (timers L) as [|t ts] eqn:Hts.
      { unfold one_at_a_time. by rewrite Hjobs. }
      unfold settle_promise. simpl.
      destruct (settled L !! target t) as [s'|].
      { unfold one_at_a_time. simpl. done. }
      rewrite foldl_fire. unfold one_at_a_time, settlement_order in *. simpl.
      split; [|split].
      * eapply sublist_NoDup; [done|]. apply fmap_sublist, sublist_filter.
      * intros r Hr%list_elem_of_filter. apply Hkeys. tauto.
      * rewrite omap_app, settlement_order_fire.
        destruct (filter_unique_key (target t) (reactions L) Hnodup)
          as [-> | (name & ->)]; simpl.
        -- by rewrite app_nil_r.
        -- by rewrite Horder.
    + unfold one_at_a_time, settlement_order in *.
      destruct j as [p name [v|e] | p name [v|e]]; destruct rest as [|j' rest];
        try done; simpl; rewrite ?omap_app; simpl; rewrite ?app_nil_r;
        (split; [done|]); (split; [done|]); done.
Qed.

Lemma one_at_a_time_run script :
  forallb from_timer script = true →
  one_at_a_time (run script (start (T:=T) (E:=E))).
Proof.
  induction script as [|c script IH] using rev_ind; [intros _; apply one_at_a_time_start|].
  rewrite forallb_app, andb_true_iff. simpl. rewrite andb_true_r.
  intros [Hscript Hc]. rewrite run_snoc.
  apply one_at_a_time_exec; [done | apply faithful_run | by apply IH].
Qed.

Lemma covered_start : covered (start (T:=T) (E:=E)).
Proof. intros x Hx. simpl in Hx. by apply elem_of_empty in Hx. Qed.

Lemma covered_fire (p : nat) s name L :
  covered L →
  covered (fire p s name (with_this (pendingOperations_add name) L)).
Proof.
  intros HL x. unfold waiting. simpl. rewrite omap_app. simpl.
  rewrite elem_of_union, elem_of_singleton, !elem_of_app, list_elem_of_singleton.
  intros [->|Hx]; [tauto|]. apply HL in Hx. unfold waiting in Hx.
  apply elem_of_app in Hx. tauto.
Qed.

Lemma covered_exec c L : covered L → covered (exec L c).
Proof.
  intros HL. destruct c as [name [exception|s|delay s]|].
  - done.
  - rewrite exec_create_immediate. apply (covered_fire _ _ _ (mark_settled _ _ _)), HL.
  - rewrite exec_create_delayed. unfold attach. simpl.
    destruct (settled L !! fresh L) as [s'|].
    + apply (covered_fire _ _ _ (setTimeout _ _ _ _)), HL.
    + intros x. unfold waiting. simpl. rewrite fmap_app. simpl.
      rewrite elem_of_union, elem_of_singleton, !elem_of_app, list_elem_of_singleton.
      intros [->|Hx]; [tauto|]. apply HL in Hx. unfold waiting in Hx.
      apply elem_of_app in Hx. tauto.
  - simpl. unfold turn. destruct (microtasks L) as [|j rest] eqn:Hjobs.
    + destruct (timers L) as [|t ts]; [done|].
      unfold settle_promise. simpl.
      unfold covered, waiting in HL. rewrite Hjobs in HL.
      destruct (settled L !! target t) as [s'|]; [done|].
      rewrite foldl_fire. intros x Hx. unfold waiting. simpl in *.
      rewrite omap_job_waiting_RunThen. apply HL in Hx.
      rewrite app_nil_r in Hx.
      apply list_elem_of_fmap in Hx as ([q n] & -> & Hr).
      destruct (decide (q = target t)) as [->|Hne].
      * apply elem_of_app. right. apply list_elem_of_fmap. exists (target t, n).
        split; [done|]. by apply list_elem_of_filter.
      * apply elem_of_app. left. apply list_elem_of_fmap. exists (q, n).
        split; [done|]. by apply list_elem_of_filter.
    + unfold covered, waiting in *. rewrite Hjobs in HL.
      destruct j as [p name [v|e] | p name [v|e]]; simpl in *; intros x.
      * rewrite omap_app, elem_of_difference, elem_of_singleton. simpl.
        intros [Hx Hne]. apply HL in Hx.
        rewrite ?elem_of_app, ?elem_of_cons, ?elem_of_nil in *. tauto.
      * rewrite omap_app. simpl. intros Hx. apply HL in Hx.
        rewrite ?elem_of_app, ?elem_of_cons, ?elem_of_nil in *. tauto.
      * apply HL.
      * rewrite elem_of_difference, elem_of_singleton.
        intros [Hx Hne]. apply HL in Hx.
        rewrite ?elem_of_app, ?elem_of_cons in *. tauto.
Qed.

Lemma covered_run script : covered (run script (start (T:=T) (E:=E))).
Proof.
  induction script as [|c script IH] using rev_ind; [apply covered_start|].
  rewrite run_snoc. by apply covered_exec.
Qed.

(** *** Every registered operation gets its record and resurfaces *)

Lemma settlements_snoc script c :
  settlements (script ++ [c]) = settlements script ++ settlements [c].
Proof. apply omap_app. Qed.

Lemma records_snoc script c : records (script ++ [c]) = records script ++ records [c].
Proof. unfold records. by rewrite settlements_snoc, fmap_app. Qed.

Lemma insert_chain_timers (x : Timer T E * string) q :
  insert_timer x.1 q.*1 = (insert_chain x q).*1.
Proof.
  induction q as [|y q IH]; [done|].
  rewrite fmap_cons. cbn [insert_timer insert_chain].
  case_bool_decide; [|done]. by rewrite fmap_cons, IH.
Qed.

Lemma insert_chain_perm (x : Timer T E * string) q : insert_chain x q ≡ₚ x :: q.
Proof.
  induction q as [|y q IH]; [done|]. simpl. case_bool_decide; [|done].
  rewrite IH. apply perm_swap.
Qed.

Lemma in_flight_start : in_flight [] (start (T:=T) (E:=E)).
Proof.
  unfold in_flight. simpl. split; [done|]. split; [constructor|]. split; [constructor|].
  split; [intros x Hx; by apply elem_of_nil in Hx|].
  split; [intros r Hr; by apply elem_of_nil in Hr|].
  intros p [s Hp]. by rewrite lookup_empty in Hp.
Qed.

Lemma in_flight_fresh q L : in_flight q L → settled L !! fresh L = None.
Proof.
  intros (_ & _ & _ & _ & _ & Hsettled).
  destruct (settled L !! fresh L) as [s|] eqn:Hp; [|done].
  pose proof (Hsettled (fresh L) (mk_is_Some _ _ Hp)). lia.
Qed.

Lemma in_flight_immediate q L name s :
  in_flight q L → in_flight q (exec L (Create name (Immediate s))).
Proof.
  intros (Htimers & Htargets & Hkeys & Hq & Hchains & Hsettled).
  rewrite exec_create_immediate. unfold in_flight. simpl.
  split; [done|]. split; [done|]. split; [done|]. split; [|split].
  - intros x Hx. destruct (Hq x Hx) as (Hp & Hin & Hlt).
    split; [|split; [done|lia]].
    rewrite lookup_insert_ne by lia. done.
  - done.
  - intros p [s' Hp]. destruct (decide (p = fresh L)) as [->|Hne]; [lia|].
    rewrite lookup_insert_ne in Hp by done.
    pose proof (Hsettled p (mk_is_Some _ _ Hp)). lia.
Qed.

Lemma exec_create_delayed_pending q L name delay s :
  in_flight q L →
  exec L (Create name (Delayed delay s)) =
    {| this := pendingOperations_add name (Promises.this L);
       now := now L; fresh := S (fresh L); settled := settled L;
       reactions := reactions L ++ [(fresh L, name)];
       microtasks := microtasks L;
       timers := insert_timer
                   {| due := now L + timer_delay delay; target := fresh L; outcome := s |}
                   (timers L);
       log := log L |}.
Proof.
  intros Hq. rewrite exec_create_delayed. unfold attach. simpl.
  by rewrite (in_flight_fresh q L Hq).
Qed.

Lemma in_flight_delayed q L name delay s :
  in_flight q L →
  in_flight
    (insert_chain
       ({| due := now L + timer_delay delay; target := fresh L; outcome := s |}, name) q)
    (exec L (Create name (Delayed delay s))).
Proof.
  intros HL. rewrite (exec_create_delayed_pending q) by done.
  destruct HL as (Htimers & Htargets & Hkeys & Hq & Hchains & Hsettled).
  set (x := ({| due := now L + timer_delay delay; target := fresh L; outcome := s |}, name)).
  assert (fresh L ∉ target <$> q.*1) as Hnew.
  { intros (t & Ht & Hin)%list_elem_of_fmap.
    apply list_elem_of_fmap in Hin as (y & -> & Hy).
    destruct (Hq y Hy) as (_ & _ & Hlt). lia. }
  assert (fresh L ∉ (reactions L).*1) as Hnew'.
  { intros (r & Hr & Hin)%list_elem_of_fmap.
    destruct (Hchains r Hin) as (y & Hy & ->).
    destruct (Hq y Hy) as (_ & _ & Hlt). simpl in Hr. lia. }
  unfold in_flight. simpl.
  split; [rewrite Htimers; apply (insert_chain_timers x)|].
  split; [rewrite insert_chain_perm; simpl; by constructor|].
  split.
  { rewrite fmap_app. simpl. apply NoDup_app. split; [done|].
    split; [|apply NoDup_singleton].
    intros k Hk ->%list_elem_of_singleton. done. }
  split; [|split].
  - intros y Hy. rewrite insert_chain_perm in Hy.
    apply elem_of_cons in Hy as [->|Hy]; simpl.
    + split; [|split; [|lia]].
      * destruct (settled L !! fresh L) as [s'|] eqn:Hp; [|done].
        pose proof (Hsettled (fresh L) (mk_is_Some _ _ Hp)). lia.
      * apply elem_of_app. right. by apply list_elem_of_singleton.
    + destruct (Hq y Hy) as (Hp & Hin & Hlt).
      split; [done|]. split; [|lia]. apply elem_of_app. by left.
  - intros r [Hr| ->%list_elem_of_singleton]%elem_of_app.
    + destruct (Hchains r Hr) as (y & Hy & ->). exists y. split; [|done].
      rewrite insert_chain_perm. by right.
    + exists x. split; [|done]. rewrite insert_chain_perm. by left.
  - intros p Hp. specialize (Hsettled p Hp). lia.
Qed.

(** A turn that runs a job touches the tracker, the queue and the log only. *)
Lemma turn_job L (j : Job T E) rest :
  microtasks L = j :: rest →
  timers (turn L) = timers L ∧ reactions (turn L) = reactions L
  ∧ settled (turn L) = settled L ∧ fresh (turn L) = fresh L.
Proof.
  intros Hjobs. unfold turn. rewrite Hjobs.
  by destruct j as [p name [v|e] | p name [v|e]].
Qed.

Lemma in_flight_job q L (j : Job T E) rest :
  microtasks L = j :: rest → in_flight q L → in_flight q (turn L).
Proof.
  intros Hjobs HL. destruct (turn_job L j rest Hjobs) as (Ht & Hr & Hs & Hf).
  unfold in_flight. by rewrite Ht, Hr, Hs, Hf.
Qed.

(** A turn that runs the callback of the next timer. *)
Lemma turn_timer (x : Timer T E * string) q L :
  in_flight (x :: q) L →
  microtasks L = [] →
  turn L =
    {| this := Promises.this L;
       now := Z.max (now L) (due x.1);
       fresh := fresh L;
       settled := <[target x.1 := outcome x.1]> (settled L);
       reactions := filter (λ r, r.1 ≠ target x.1) (reactions L);
       microtasks := [RunThen (target x.1) x.2 (outcome x.1)];
       timers := q.*1;
       log := log L ++ [OperationSettled (target x.1) x.2 (outcome x.1)] |}.
Proof.
  intros (Htimers & Htargets & Hkeys & Hq & Hchains & Hsettled) Hjobs.
  destruct (Hq x ltac:(by left)) as (Hp & Hin & _).
  rewrite fmap_cons in Htimers.
  unfold turn. rewrite Hjobs, Htimers. unfold settle_promise. simpl. rewrite Hp.
  rewrite foldl_fire. simpl.
  assert (filter (λ r, r.1 = target x.1) (reactions L) = [(target x.1, x.2)]) as ->.
  { destruct (filter_unique_key (target x.1) (reactions L) Hkeys) as [Hnone|[name Hone]].
    - exfalso. eapply (filter_nil_not_elem_of _ _ _ Hnone); [|exact Hin]. done.
    - rewrite Hone. do 2 f_equal.
      assert ((target x.1, x.2) ∈ filter (λ r, r.1 = target x.1) (reactions L)) as Hin'
        by by apply list_elem_of_filter.
      rewrite Hone in Hin'. apply list_elem_of_singleton in Hin'. congruence. }
  done.
Qed.

Lemma in_flight_timer (x : Timer T E * string) q L :
  in_flight (x :: q) L → microtasks L = [] → in_flight q (turn L).
Proof.
  intros HL Hjobs. rewrite (turn_timer x q L HL Hjobs).
  destruct HL as (Htimers & Htargets & Hkeys & Hq & Hchains & Hsettled).
  rewrite !fmap_cons in Htargets. apply NoDup_cons in Htargets as [Hx Htargets].
  unfold in_flight. simpl.
  split; [done|]. split; [done|].
  split; [eapply sublist_NoDup; [done|]; apply fmap_sublist, sublist_filter|].
  assert (∀ y, y ∈ q → target y.1 ≠ target x.1) as Hne.
  { intros y Hy Heq. apply Hx. rewrite <- Heq.
    apply list_elem_of_fmap. exists y.1. split; [done|].
    apply list_elem_of_fmap. by exists y. }
  split; [|split].
  - intros y Hy. destruct (Hq y ltac:(by right)) as (Hp & Hin & Hlt).
    split; [by rewrite lookup_insert_ne by (symmetry; by apply Hne)|].
    split; [|done]. apply list_elem_of_filter. split; [by apply Hne|done].
  - intros r [Hr Hin]%list_elem_of_filter.
    destruct (Hchains r Hin) as (y & Hy & ->).
    apply elem_of_cons in Hy as [->|Hy]; [done|]. by exists y.
  - intros p [s Hp]. destruct (decide (p = target x.1)) as [->|Hp'].
    + by destruct (Hq x ltac:(by left)) as (_ & _ & ?).
    + rewrite lookup_insert_ne in Hp by done. by apply Hsettled.
Qed.

Lemma progress_start : progress [] [] (start (T:=T) (E:=E)).
Proof. split; [apply in_flight_start|done]. Qed.

Lemma progress_create script q L name f :
  progress script q L →
  ∃ q', progress (script ++ [Create name f]) q' (exec L (Create name f)).
Proof.
  intros (HL & Hchains & Hrecords). destruct f as [exception|s|delay s].
  - exists q. rewrite exec_create_throwing. unfold progress.
    rewrite settlements_snoc, records_snoc. simpl. by rewrite !app_nil_r.
  - exists q. split; [by apply in_flight_immediate|].
    rewrite exec_create_immediate, settlements_snoc, records_snoc.
    unfold resurfaced in *. simpl.
    rewrite ?omap_app, ?fmap_app. simpl. rewrite ?app_nil_r.
    rewrite <- Hchains, <- Hrecords. split; solve_Permutation.
  - eexists. split; [by apply in_flight_delayed|].
    rewrite (exec_create_delayed_pending q) by done.
    rewrite settlements_snoc, records_snoc.
    unfold resurfaced in *. simpl.
    rewrite !insert_chain_perm. simpl.
    rewrite <- Hchains, <- Hrecords. split; solve_Permutation.
Qed.

Lemma progress_turn script q L :
  progress script q L → ∃ q', progress (script ++ [Turn]) q' (turn L).
Proof.
  intros (HL & Hchains & Hrecords).
  rewrite <- (app_nil_r (settlements script)) in Hchains.
  rewrite <- (app_nil_r (records script)) in Hrecords.
  change [] with (settlements (T:=T) (E:=E) [Turn]) in Hchains.
  change [] with (records (T:=T) (E:=E) [Turn]) in Hrecords.
  rewrite <- settlements_snoc in Hchains. rewrite <- records_snoc in Hrecords.
  destruct (microtasks L) as [|j rest] eqn:Hjobs.
  - destruct q as [|x q].
    + exists []. destruct HL as (Htimers & HL). simpl in Htimers.
      assert (turn L = L) as -> by (unfold turn; by rewrite Hjobs, Htimers).
      split; [by split|]. by rewrite Hjobs.
    + exists q. split; [by apply (in_flight_timer x)|].
      rewrite (turn_timer x q L HL Hjobs). unfold resurfaced in *. simpl in *.
      rewrite omap_app. simpl. rewrite app_nil_r.
      rewrite <- Hchains, <- Hrecords. split; solve_Permutation.
  - exists q. split; [by apply (in_flight_job q L j rest)|].
    unfold turn. rewrite Hjobs. unfold resurfaced in *.
    destruct j as [p name [v|e] | p name [v|e]]; simpl in *;
      rewrite ?omap_app, ?fmap_app; simpl; rewrite ?app_nil_r;
      rewrite <- Hchains, <- Hrecords; split; solve_Permutation.
Qed.

Lemma progress_run script : ∃ q, progress script q (run script (start (T:=T) (E:=E))).
Proof.
  induction script as [|c script [q IH]] using rev_ind; [exists []; apply progress_start|].
  rewrite run_snoc. destruct c as [name f|].
  - by apply (progress_create script q).
  - by apply (progress_turn script q).
Qed.

(** Each turn of a loop that is not idle takes work away. *)
Lemma work_turn q L :
  in_flight q L → idle L = false → (work (turn L) < work L)%nat.
Proof.
  intros HL Hbusy. destruct (microtasks L) as [|j rest] eqn:Hjobs.
  - destruct q as [|x q].
    + destruct HL as (Htimers & _). unfold idle in Hbusy.
      rewrite Hjobs, Htimers in Hbusy. done.
    + rewrite (turn_timer x q L HL Hjobs). destruct HL as (Htimers & _).
      unfold work. cbn [timers microtasks]. rewrite Hjobs, Htimers, fmap_cons.
      cbn [length sum_list_with job_work]. lia.
  - destruct (turn_job L j rest Hjobs) as (Ht & _).
    unfold work. rewrite Ht, Hjobs. unfold turn. rewrite Hjobs.
    destruct j as [p name [v|e] | p name [v|e]]; simpl;
      rewrite ?sum_list_with_app; simpl; lia.
Qed.

Lemma idle_work L : work L = 0%nat → idle L = true.
Proof.
  unfold work, idle. destruct (timers L) as [|t ts]; [|simpl; lia].
  destruct (microtasks L) as [|[p name s|p name s] rest]; simpl; [done|lia..].
Qed.

Lemma turn_idle L : idle L = true → turn L = L.
Proof.
  unfold idle, turn. destruct (microtasks L) as [|j rest]; [|done].
  by destruct (timers L).
Qed.

Lemma turns_idle n L : idle L = true → turns n L = L.
Proof.
  intros Hidle. induction n as [|n IH]; [done|].
  simpl. by rewrite turn_idle.
Qed.

Lemma turns_reach_idle (n : nat) :
  ∀ script,
    (work (run script (start (T:=T) (E:=E))) ≤ n)%nat →
    idle (turns n (run script start)) = true.
Proof.
  induction n as [|n IH]; intros script Hwork.
  - apply idle_work. simpl. lia.
  - simpl. destruct (idle (run script start)) eqn:Hidle.
    + rewrite turn_idle by done. by rewrite turns_idle.
    + destruct (progress_run script) as (q & HL & _).
      pose proof (work_turn q _ HL Hidle) as Hless.
      specialize (IH (script ++ [Turn])). rewrite run_snoc in IH. simpl in IH.
      apply IH. lia.
Qed.

(** Where every session ends: once the loop has taken the turns it owes, it
    is idle, every operation that was registered has resurfaced with the
    settlement of its own promise, its record is written, and the pending
    set is empty. *)
Lemma session_completes script :
  let L := turns (work (run script start)) (run script (start (T:=T) (E:=E))) in
  idle L = true
  ∧ resurfaced L ≡ₚ settlements script
  ∧ completedOperations (Promises.this L) ≡ₚ records script
  ∧ pendingOperations (Promises.this L) = ∅.
Proof.
  intros L. set (n := work (run script start)) in *.
  assert (idle L = true) as Hidle by (by apply turns_reach_idle).
  assert (L = run (script ++ replicate n Turn) start) as HL
    by (by rewrite run_app, run_turns).
  destruct (progress_run (script ++ replicate n Turn))
    as (q & Hq & Hchains & Hrecords).
  pose proof (covered_run (script ++ replicate n Turn)) as Hcovered.
  rewrite <- HL in Hq, Hchains, Hrecords, Hcovered.
  assert (settlements (script ++ replicate n Turn) = settlements script) as Hsame.
  { unfold settlements. rewrite omap_app.
    assert (omap (λ c : Command T E, match c with
                   | Create name (Immediate s) | Create name (Delayed _ s) => Some (name, s)
                   | _ => None
                   end) (replicate n Turn) = []) as ->; [|by rewrite app_nil_r].
    clear. induction n as [|n IH]; [done|]. simpl. exact IH. }
  unfold records in Hrecords. rewrite Hsame in Hchains, Hrecords.
  unfold idle in Hidle.
  destruct (microtasks L) as [|j rest] eqn:Hjobs; [|done].
  destruct (timers L) as [|t ts] eqn:Hts; [|done].
  destruct Hq as (Htimers & _ & _ & _ & Hwaiting & _).
  rewrite Hts in Htimers. destruct q as [|x q]; [|done].
  simpl in Hchains, Hrecords. rewrite app_nil_r in Hchains, Hrecords.
  split; [unfold idle; by rewrite Hjobs, Hts|]. split; [done|]. split; [done|].
  apply set_eq. intros x. rewrite elem_of_empty. split; [|done].
  intros Hx%Hcovered. unfold waiting in Hx. rewrite Hjobs in Hx. simpl in Hx.
  rewrite app_nil_r in Hx. apply list_elem_of_fmap in Hx as (r & _ & Hr).
  destruct (Hwaiting r Hr) as (y & Hy & _). by apply elem_of_nil in Hy.
Qed.

(** C5.  In a session that registers no name twice, at every instant each
    name registered so far is in the pending set or has a record in the
    completed sequence, and never both.  A turn of the loop either leaves
    both alone or removes one name from the pending set and appends the
    record of that name, in one step.  Every settlement does lead to that
    step: when the loop has taken the turns it owes, the completed sequence
    holds the record of each registered operation, with the status and the
    value or reason its promise settled with, and the pending set is
    empty. *)
Theorem registered_name_pending_xor_completed script (k : nat) name :
  NoDup (registered script) →
  name ∈ registered (take k script) →
  let L := run (take k script) start in
  ((name ∈ pendingOperations (Promises.this L) ∧ (name ∉ completed_names L))
   ∨ ((name ∉ pendingOperations (Promises.this L)) ∧ name ∈ completed_names L))
  ∧ (Promises.this (turn L) = Promises.this L
     ∨ ∃ r, completedOperations (Promises.this (turn L))
              = completedOperations (Promises.this L) ++ [r]
            ∧ pendingOperations (Promises.this (turn L))
              = pendingOperations (Promises.this L) ∖ {[ record_name r ]})
  ∧ (let L' := turns (work (run script start)) (run script start) in
     idle L' = true
     ∧ completedOperations (Promises.this L') ≡ₚ records script
     ∧ pendingOperations (Promises.this L') = ∅
     ∧ name ∈ completed_names L').
Proof.
  intros Hnodup Hname L. split; [|split].
  - destruct (tracks_run (take k script)) as [Hperm Hpending]. fold L in Hperm, Hpending.
    assert (NoDup (registered (take k script))) as Hprefix.
    { rewrite <- (take_drop k script) in Hnodup. unfold registered in Hnodup.
      rewrite omap_app in Hnodup. by apply NoDup_app in Hnodup as [? _]. }
    specialize (Hpending Hprefix).
    rewrite <- Hperm in Hprefix, Hname.
    apply NoDup_app in Hprefix as (_ & Hdisjoint & _).
    apply elem_of_app in Hname as [Hw|Hc].
    + left. split; [by apply Hpending | by apply Hdisjoint].
    + right. split; [|done]. rewrite Hpending. intros Hw. by apply (Hdisjoint name).
  - destruct (turn_bookkeeping L) as [?|(n & s & ->)]; [by left|].
    right. exists (record_of n s). simpl. split; [done|]. by destruct s.
  - intros L'. destruct (session_completes script) as (Hidle & _ & Hrecords & Hpending).
    fold L' in Hidle, Hrecords, Hpending.
    split; [done|]. split; [done|]. split; [done|].
    assert (name ∈ registered script) as Hreg.
    { rewrite <- (take_drop k script). unfold registered in *.
      rewrite omap_app. apply elem_of_app. by left. }
    unfold completed_names. rewrite Hrecords. unfold records.
    rewrite <- list_fmap_compose.
    clear -Hreg. induction script as [|c script IH]; [done|].
    destruct c as [n [exception|s|delay s]|]; simpl in *;
      rewrite ?fmap_cons; simpl; rewrite ?elem_of_cons in *;
      destruct s || idtac; tauto.
Qed.

(** C6.  Whenever the promise returned by [createTrackedPromise] has
    settled, it has settled with the settlement of the promise the factory
    returned, the record of the operation is in the completed sequence by
    then and, in a session without repeated names, its name is out of the
    pending set.  Every tracked operation comes to that: once the loop has
    taken the turns it owes, each registered operation has resurfaced, with
    the settlement of its own promise.  The two handlers of the chain hand on
    what they are given: they take the name out of the pending set, append
    the record and produce no failure of their own. *)
Theorem tracked_settlement_resurfaces_unchanged script (p : nat) name s :
  let L := run script start in
  (Resurfaced p name s ∈ log L →
   settled L !! p = Some s
   ∧ record_of name s ∈ completedOperations (Promises.this L)
   ∧ (NoDup (registered script) → name ∉ pendingOperations (Promises.this L)))
  ∧ (OperationSettled p name s ∈ log L →
     ∃ k, Resurfaced p name s ∈ log (turns k L))
  ∧ (let L' := turns (work L) L in
     idle L' = true ∧ resurfaced L' ≡ₚ settlements script)
  ∧ ∀ tracker : AsyncDebugging T E,
      catch_ (onRejected name) ((then_ (onFulfilled name) s tracker).1)
             ((then_ (onFulfilled name) s tracker).2)
      = (s, {| requestId := requestId tracker;
               pendingOperations := pendingOperations tracker ∖ {[ name ]};
               completedOperations := completedOperations tracker ++ [record_of name s] |}).
Proof.
  intros L. split; [|split; [|split]].
  - intros Hin. destruct (faithful_run script) as (Hlog & _).
    destruct (Hlog p name s Hin) as [Hp Hrecord]. fold L in Hp, Hrecord.
    split; [done|]. split; [done|].
    intros Hnodup. destruct (tracks_run script) as [Hperm Hpending].
    fold L in Hperm, Hpending. rewrite (Hpending Hnodup).
    rewrite <- Hperm in Hnodup. apply NoDup_app in Hnodup as (_ & Hdisjoint & _).
    intros Hwaiting. apply (Hdisjoint name Hwaiting).
    unfold completed_names. apply list_elem_of_fmap. exists (record_of name s).
    split; [by destruct s|done].
  - intros Hin. destruct (accounted_run script p name s Hin) as [Hjob|[Hjob|Hdone]].
    + by apply queued_then_resurfaces.
    + by apply queued_catch_resurfaces.
    + by exists 0%nat.
  - intros L'. destruct (session_completes script) as (Hidle & Hresurfaced & _).
    by split.
  - intros tracker. by destruct s.
Qed.

(** C7, amended.  The completed sequence only grows at its end.  Among the
    fulfilled operations, and among the rejected ones, records are in the
    order of settlement; a rejected record is written by the second job of
    its chain, so it can come after the record of an operation that was
    fulfilled later.  When every tracked promise settles from a timer
    callback of its own, the whole sequence is in settlement order.  Three
    operations on timers that run with increasing delays (a delay below 1 ms
    or above 2^31 - 1 ms runs as 1 ms), registered in any order, end with an
    empty pending set and their three records in the order of the delays,
    each with the status and the value or reason of its operation. *)
Theorem completed_sequence_order script :
  let L := run script start in
  (∀ c, completedOperations (Promises.this L)
          `prefix_of` completedOperations (Promises.this (exec L c)))
  ∧ List.filter is_fulfilled_record (completedOperations (Promises.this L))
      `prefix_of` List.filter is_fulfilled_record (settlement_order L)
  ∧ List.filter is_rejected_record (completedOperations (Promises.this L))
      `prefix_of` List.filter is_rejected_record (settlement_order L)
  ∧ (forallb from_timer script = true →
     completedOperations (Promises.this L) `prefix_of` settlement_order L
     ∧ (microtasks L = [] → completedOperations (Promises.this L) = settlement_order L))
  ∧ (∀ (o1 o2 o3 : TimedOperation T E) ops,
       timer_delay (op_delay o1) < timer_delay (op_delay o2) < timer_delay (op_delay o3) →
       ops ≡ₚ [o1; o2; o3] →
       let L3 := run ((track <$> ops) ++ replicate 9 Turn) start in
       idle L3 = true
       ∧ pendingOperations (Promises.this L3) = ∅
       ∧ completedOperations (Promises.this L3)
         = [record_of (op_name o1) (op_outcome o1);
            record_of (op_name o2) (op_outcome o2);
            record_of (op_name o3) (op_outcome o3)]).
Proof.
  intros L. split; [intros c; apply completed_append_only|].
  destruct (ordered_by_status_run script) as [Hful Hrej]. fold L in Hful, Hrej.
  split; [rewrite Hful; by apply prefix_app_r|].
  split; [rewrite Hrej; by apply prefix_app_r|].
  split; [|apply three_timed_operations].
  intros Htimers. destruct (one_at_a_time_run script Htimers) as (_ & _ & Horder).
  fold L in Horder.
  destruct (microtasks L) as [|[p name s | p name [v|e]] [|j rest]]; try done.
  - by rewrite Horder.
  - split; [|done]. rewrite <- Horder. by apply prefix_app_r.
  - split; [|done]. by rewrite Horder.
  - split; [|done]. rewrite <- Horder. by apply prefix_app_r.
Qed.

End TrackerFacts.

(** C7, as stated, fails: two operations settle at once, as the [async]
    function [unreliableOperation] does, the first one rejected and the
    second one fulfilled; the record of the second is written first. *)
Lemma completed_out_of_settlement_order :
  let L := run [Create "first" (Immediate (Rejected "Unreliable operation failed"));
                Create "second" (Immediate (Fulfilled "Unreliable operation succeeded"));
                Turn; Turn; Turn; Turn] (start (T:=string) (E:=string)) in
  idle L = true
  ∧ settlement_order L
    = [rejected "first" "Unreliable operation failed";
       fulfilled "second" "Unreliable operation succeeded"]
  ∧ completedOperations (Promises.this L)
    = [fulfilled "second" "Unreliable operation succeeded";
       rejected "first" "Unreliable operation failed"]
  ∧ completedOperations (Promises.this L) ≠ settlement_order L.
Proof. repeat split; try reflexivity. discriminate. Qed.

(** The theorems above at sample sessions. *)

Lemma registered_name_pending_xor_completed_witness :
  let script := [Create "user-fetch" (Delayed 90 (Fulfilled "user 5"));
                 Create "posts-fetch" (Delayed 60 (Rejected "no posts"));
                 Turn; Turn; Turn] in
  NoDup (registered (T:=string) (E:=string) script)
  ∧ "posts-fetch" ∈ registered (take 4 script)
  ∧ let L := run (take 4 script) start in
    (("posts-fetch" ∈ pendingOperations (Promises.this L)
      ∧ ("posts-fetch" ∉ completed_names L))
     ∨ (("posts-fetch" ∉ pendingOperations (Promises.this L))
        ∧ "posts-fetch" ∈ completed_names L))
    ∧ (Promises.this (turn L) = Promises.this L
       ∨ ∃ r, completedOperations (Promises.this (turn L))
                = completedOperations (Promises.this L) ++ [r]
              ∧ pendingOperations (Promises.this (turn L))
                = pendingOperations (Promises.this L) ∖ {[ record_name r ]})
    ∧ (let L' := turns (work (run script start)) (run script start) in
       idle L' = true
       ∧ completedOperations (Promises.this L') ≡ₚ records script
       ∧ pendingOperations (Promises.this L') = ∅
       ∧ "posts-fetch" ∈ completed_names L').
Proof.
  intros script.
  assert (NoDup (registered (T:=string) (E:=string) script)) as Hnodup.
  { apply (bool_decide_unpack _). vm_compute. exact I. }
  assert ("posts-fetch" ∈ registered (take 4 script)) as Hin.
  { simpl. apply list_elem_of_further, list_elem_of_here. }
  split; [exact Hnodup|]. split; [exact Hin|].
  exact (registered_name_pending_xor_completed script 4 "posts-fetch" Hnodup Hin).
Defined.

Lemma tracked_settlement_resurfaces_unchanged_witness :
  let script := [Create "user-fetch" (Delayed 90 (Rejected "User 999 not found"));
                 Turn; Turn; Turn] in
  let L := run script (start (T:=string) (E:=string)) in
  Resurfaced 0 "user-fetch" (Rejected "User 999 not found") ∈ log L
  ∧ OperationSettled 0 "user-fetch" (Rejected "User 999 not found") ∈ log L
  ∧ NoDup (registered script)
  ∧ settled L !! 0%nat = Some (Rejected "User 999 not found")
  ∧ record_of "user-fetch" (Rejected "User 999 not found")
      ∈ completedOperations (Promises.this L)
  ∧ ("user-fetch" ∉ pendingOperations (Promises.this L))
  ∧ ∃ k, Resurfaced 0 "user-fetch" (Rejected "User 999 not found") ∈ log (turns k L).
Proof.
  intros script L.
  assert (NoDup (registered script)) as Hnodup.
  { apply (bool_decide_unpack _). vm_compute. exact I. }
  assert (Resurfaced 0 "user-fetch" (Rejected "User 999 not found") ∈ log L) as Hin.
  { vm_compute. apply list_elem_of_further, list_elem_of_here. }
  assert (OperationSettled 0 "user-fetch" (Rejected "User 999 not found") ∈ log L)
    as Hsettled.
  { vm_compute. apply list_elem_of_here. }
  destruct (tracked_settlement_resurfaces_unchanged (T:=string) (E:=string)
              script 0 "user-fetch" (Rejected "User 999 not found"))
    as (Hsame & Hlater & _).
  split; [exact Hin|]. split; [exact Hsettled|]. split; [exact Hnodup|].
  split; [exact (proj1 (Hsame Hin))|].
  split; [exact (proj1 (proj2 (Hsame Hin)))|].
  split; [exact (proj2 (proj2 (Hsame Hin)) Hnodup)|].
  exact (Hlater Hsettled).
Defined.

Lemma factory_exception_propagates_witness :
  call (Throwing "boom") (start (T:=string) (E:=string)) = (Throws "boom", start)
  ∧ createTrackedPromise "user-fetch" (call (Throwing "boom"))
      (start (T:=string) (E:=string))
    = (Throws "boom", start)
  ∧ ∀ script,
      run (Create "user-fetch" (Throwing "boom") :: script)
        (start (T:=string) (E:=string))
      = run script start.
Proof.
  split; [reflexivity|].
  apply (factory_exception_propagates "user-fetch" (call (Throwing "boom"))
           start "boom" start).
  reflexivity.
Defined.

Lemma completed_sequence_order_witness :
  let o1 := {| op_name := "fast"; op_delay := 10; op_outcome := Fulfilled "f" |} in
  let o2 := {| op_name := "medium"; op_delay := 20; op_outcome := Rejected "m" |} in
  let o3 := {| op_name := "slow"; op_delay := 30; op_outcome := Fulfilled "s" |} in
  let script := (track <$> [o3; o1; o2]) ++ [Turn; Turn; Turn; Turn] in
  forallb (from_timer (T:=string) (E:=string)) script = true
  ∧ timer_delay (op_delay o1) < timer_delay (op_delay o2) < timer_delay (op_delay o3)
  ∧ [o3; o1; o2] ≡ₚ [o1; o2; o3]
  ∧ completedOperations (Promises.this (run script start))
      `prefix_of` settlement_order (run script start)
  ∧ let L3 := run ((track <$> [o3; o1; o2]) ++ replicate 9 Turn) start in
    idle L3 = true
    ∧ pendingOperations (Promises.this L3) = ∅
    ∧ completedOperations (Promises.this L3)
      = [fulfilled "fast" "f"; rejected "medium" "m"; fulfilled "slow" "s"].
Proof.
  intros o1 o2 o3 script.
  destruct (completed_sequence_order script) as (_ & _ & _ & Htimers & Hthree).
  assert (forallb (from_timer (T:=string) (E:=string)) script = true) as Hscript
    by reflexivity.
  assert (timer_delay (op_delay o1) < timer_delay (op_delay o2)
          < timer_delay (op_delay o3)) as Hdelays by (vm_compute; done).
  assert ([o3; o1; o2] ≡ₚ [o1; o2; o3]) as Hperm.
  { etrans; [apply perm_swap|]. apply perm_skip, perm_swap. }
  split; [exact Hscript|]. split; [exact Hdelays|]. split; [exact Hperm|].
  split; [exact (proj1 (Htimers Hscript))|].
  exact (Hthree o1 o2 o3 [o3; o1; o2] Hdelays Hperm).
Defined.

End PromisesFacts.

(** * Strings *)

Module StringFacts.

Lemma app_assoc (s1 s2 s3 : string) : (s1 +:+ s2) +:+ s3 = s1 +:+ s2 +:+ s3.
Proof.
  induction s1 as [|c s1 IH]; [done|].
  unfold String.append; fold String.append. f_equal. exact IH.
Qed.

Lemma length_app (s1 s2 : string) :
  String.length (s1 +:+ s2) = (String.length s1 + String.length s2)%nat.
Proof.
  induction s1 as [|c s1 IH]; [done|].
  unfold String.append; fold String.append. simpl. f_equal. exact IH.
Qed.



End StringFacts.

(** * More properties of the executors *)

Module RecoveryFacts.
Import TryCatch Recovery TryCatchFacts.

Section RetryMore.

Context {T W : Type}.
Implicit Types (operation : @Operation T W) (w : W) (tr : list (Event T)).


Lemma sum_linear_waits (a : Z) (n : nat) :
  2 * foldr Z.add 0 ((λ i, 100 * i) <$> seqZ a (Z.of_nat n))
  = 100 * Z.of_nat n * (2 * a + Z.of_nat n - 1).
Proof.
  revert a. induction n as [|n IH]; intros a; [done|].
  rewrite seqZ_cons by lia.
  replace (Z.pred (Z.of_nat (S n))) with (Z.of_nat n) by lia.
  rewrite fmap_cons. cbn [foldr].
  specialize (IH (Z.succ a)). nia.
Qed.

(** X1. With [maxRetries] zero or negative the loop body is never entered:
    the promise is fulfilled with [undefined], the operation is not called
    and nothing is printed. *)
Theorem retry_without_attempts operation (maxRetries : Z) w :
  maxRetries ≤ 0 →
  retryOperation operation maxRetries w = (Some (Fulfilled None), w, []).
Proof. intros Hle. unfold retryOperation. by apply retry_loop_skipped. Qed.


(** X3. The waits of a run that calls the operation [k] times add up to
    [50 * k * (k - 1)] time units, so a run never waits longer than
    [50 * maxRetries * (maxRetries - 1)] in all. *)
Theorem retry_total_wait operation (maxRetries : Z) w :
  ∃ r w' tr,
    retryOperation operation maxRetries w = (Some r, w', tr) ∧
    total_wait tr
      = 50 * Z.of_nat (invocations TheOperation tr)
           * (Z.of_nat (invocations TheOperation tr) - 1) ∧
    0 ≤ total_wait tr ≤ 50 * Z.max 0 maxRetries * Z.max 0 (maxRetries - 1).
Proof.
  destruct (retry_loop_shape operation maxRetries (S (Z.to_nat maxRetries)) 0 w)
    as (r & w' & tr & n & closing & Hrun & Hticks & Htimeouts & Hcalls & Hend); [lia|].
  exists r, w', tr. split; [done|].
  pose proof (sum_linear_waits 1 n) as Hsum. change (0 + 1) with 1 in Htimeouts.
  unfold total_wait. rewrite Htimeouts, Hcalls, Hticks, calls_app, calls_backoff_ticks.
  set (total := foldr Z.add 0 ((λ i, 100 * i) <$> seqZ 1 (Z.of_nat n))) in *.
  clearbody total.
  destruct (Z.max_spec 0 maxRetries) as [[? ->]|[? ->]],
    (Z.max_spec 0 (maxRetries - 1)) as [[? ->]|[? ->]];
    destruct Hend as [(-> & -> & Hle & ->)
      | [(-> & Hn & Hr) | [(-> & Hn & Hr & _) | (-> & Hn & _)]]];
    unfold calls; simpl; split; nia.
Qed.

End RetryMore.

Lemma retry_without_attempts_witness :
  retryOperation unreliableOperation 0 (λ _ : nat, true)
  = (Some (Fulfilled None), λ _ : nat, true, []).
Proof. apply (retry_without_attempts unreliableOperation 0 (λ _ : nat, true)). lia. Defined.


(** X4. The call [retryOperation(() => this.unreliableOperation())] of
    [errorRecovery], with the default of three attempts: it is rejected when
    the three tests [Math.random() < 0.7] all hold and fulfilled otherwise,
    and it draws as many random numbers as it makes attempts. *)
Theorem retry_of_unreliableOperation (random : nat → bool) :
  let attempts :=
    (if negb (random 0%nat) then 1 else if negb (random 1%nat) then 2 else 3)%nat in
  ∃ tr,
    retryOperation_default unreliableOperation random =
      (Some (if random 0%nat && random 1%nat && random 2%nat
             then Rejected (thrown (error_object (new_Error
                    "Operation failed after 3 attempts: Unreliable operation failed")))
             else Fulfilled (Some "Unreliable operation succeeded")),
       (λ n, random (attempts + n)%nat), tr) ∧
    invocations TheOperation tr = attempts.
Proof.
  unfold retryOperation_default, retryOperation, unreliableOperation.
  simpl. unfold mbind, Exec_bind, bind, await_call, console_log, console_error,
    await_timeout, emit. simpl.
  destruct (random 0%nat) eqn:H0; simpl; [|eexists; split; reflexivity].
  destruct (random 1%nat) eqn:H1; simpl; [|eexists; split; reflexivity].
  destruct (random 2%nat) eqn:H2; simpl; eexists; split; reflexivity.
Qed.

(** X5. [withFallback] on two calls of [asyncOperation], as [errorRecovery]
    uses it: the result is the message of the primary when its type is
    ["success"], else that of the fallback when its type is ["success"], and
    else the error that names both failures; the world is left as it was. *)
Theorem fallback_of_asyncOperations {W} (type1 type2 : string) (delay1 delay2 : Z) (w : W) :
  (withFallback (asyncOperation type1 delay1) (asyncOperation type2 delay2) w).1 =
    (if bool_decide (type1 = "success")
     then Fulfilled ("Async operation completed after " +:+ show delay1 +:+ "ms")
     else if bool_decide (type2 = "success")
     then Fulfilled ("Async operation completed after " +:+ show delay2 +:+ "ms")
     else Rejected (thrown (error_object (new_Error
            ("Both operations failed. Primary: Async operation failed after "
               +:+ show delay1 +:+ "ms, Fallback: Async operation failed after "
               +:+ show delay2 +:+ "ms")))),
     w).
Proof.
  unfold withFallback, asyncOperation, mbind, Exec_bind, bind, await_call,
    console_warn, emit.
  repeat case_bool_decide; simpl; try done.
  unfold both_failed, thrown_Error.
  cbn [read_message message_of message text_of default]. unfold id.
  do 5 f_equal. by rewrite !StringFacts.app_assoc.
Qed.

End RecoveryFacts.

(** * More properties of the tracker *)

Module SessionsFacts.
Import Promises Sessions PromisesFacts.

Section SessionsMore.

Context {T E : Type}.
Implicit Types (L : Loop T E) (s : Settlement T E) (name : string)
  (script : list (Command T E)) (q : list (nat * TimedOperation T E)).

(** *** Names in the pending set are waited for *)

(** X6. Registrations are neither lost nor doubled, whether names repeat or
    not: at any moment of a session the names still waited for and the names
    of the records are, taken together, the names registered so far, each as
    often as it was registered. *)
Theorem every_registration_accounted script :
  let L := run script start in
  waiting L ++ completed_names L ≡ₚ registered script
  ∧ (length (waiting L) + length (completedOperations (Promises.this L))
     = length (registered script))%nat.
Proof.
  intros L. destruct (tracks_run script) as [Hperm _]. fold L in Hperm.
  split; [done|].
  apply Permutation_length in Hperm.
  unfold completed_names in Hperm.
  by rewrite length_app, length_fmap in Hperm.
Qed.

(** X7. The pending set never holds a stale name: each of its names belongs
    to an operation whose record is still to be written, so once no operation
    is waited for the pending set is empty. *)
Theorem pending_names_are_waited_for script :
  let L := run script start in
  pendingOperations (Promises.this L) ⊆ list_to_set (waiting L)
  ∧ (waiting L = [] → pendingOperations (Promises.this L) = ∅).
Proof.
  intros L. pose proof (covered_run script) as Hcovered. fold L in Hcovered.
  split.
  - intros x Hx. apply elem_of_list_to_set. by apply Hcovered.
  - intros Hnone. apply set_eq. intros x. rewrite elem_of_empty.
    split; [|done]. intros Hx%Hcovered. rewrite Hnone in Hx.
    by apply elem_of_nil in Hx.
Qed.

(** *** Any number of operations on timers *)

Lemma timers_insert_op (x : nat * TimedOperation T E) q :
  insert_timer (timer_of x) (timer_of <$> q) = timer_of <$> insert_op x q.
Proof.
  induction q as [|y q IH]; [done|].
  rewrite fmap_cons. cbn [insert_timer insert_op timer_of due].
  repeat case_bool_decide; try lia; [|done].
  by rewrite fmap_cons, <- IH.
Qed.

Lemma insert_op_perm (x : nat * TimedOperation T E) q : insert_op x q ≡ₚ x :: q.
Proof.
  induction q as [|y q IH]; [done|]. simpl. case_bool_decide; [|done].
  rewrite IH. apply perm_swap.
Qed.

Lemma insert_op_sorted (x : nat * TimedOperation T E) q :
  StronglySorted by_delay q.*2 → StronglySorted by_delay (insert_op x q).*2.
Proof.
  induction q as [|y q IH]; simpl.
  - intros _. repeat constructor.
  - intros [Hq Hy]%StronglySorted_inv. case_bool_decide as Hle; simpl.
    + constructor; [by apply IH|].
      rewrite insert_op_perm. simpl. by constructor.
    + constructor; [by constructor|].
      constructor; [unfold by_delay; lia|].
      eapply Forall_impl; [done|]. unfold by_delay. simpl. intros z Hz. lia.
Qed.

Lemma registrations_lined_up (ops : list (TimedOperation T E)) :
  ∃ q,
    let L := run (track <$> ops) start in
    lined_up q L ∧ q.*2 ≡ₚ ops ∧ StronglySorted by_delay q.*2 ∧
    completedOperations (Promises.this L) = [] ∧
    now L = 0 ∧ fresh L = length ops ∧ settled L = ∅ ∧
    (∀ r, r ∈ reactions L → (r.1 < fresh L)%nat) ∧
    (∀ x, x ∈ q → (x.1 < fresh L)%nat).
Proof.
  induction ops as [|o ops IH] using rev_ind.
  - exists []. simpl.
    assert (∀ x : nat * TimedOperation T E, x ∉ []) as Hnone
      by (intros x Hx; by apply elem_of_nil in Hx).
    repeat split; try done; try constructor;
      try (intros x Hx; by apply Hnone in Hx);
      try match goal with Hx : _ ∈ [] |- _ => by apply elem_of_nil in Hx end.
    intros r Hr. by apply elem_of_nil in Hr.
  - destruct IH as (q & Hlined & Hperm & Hsorted & Hcompleted & Hnow & Hfresh
      & Hsettled & Hkeys & Htargets).
    destruct Hlined as (Hjobs & Htimers & Hnodup & Hchains & Hq).
    exists (insert_op (length ops, o) q).
    rewrite fmap_app, run_app. simpl.
    set (L := run (track <$> ops) start) in *.
    unfold attach. simpl. rewrite Hsettled, lookup_empty. simpl.
    rewrite Hnow, Hfresh, Htimers.
    change {| due := 0 + timer_delay (op_delay o); target := length ops;
              outcome := op_outcome o |}
      with (timer_of (length ops, o)).
    rewrite timers_insert_op.
    assert (length ops ∉ q.*1) as Hnew.
    { intros (x & Hx & Hin)%list_elem_of_fmap. specialize (Htargets x Hin). lia. }
    assert (length ops ∉ (reactions L).*1) as Hnew'.
    { intros (r & Hr & Hin)%list_elem_of_fmap. specialize (Hkeys r Hin). lia. }
    split; [|split; [|split; [|split; [|split; [|split; [|split; [|split]]]]]]].
    + unfold lined_up. simpl. split; [done|]. split; [done|].
      split; [rewrite insert_op_perm; simpl; by constructor|].
      split.
      { rewrite fmap_app. simpl. apply NoDup_app. split; [done|].
        split; [|apply NoDup_singleton].
        intros k Hk ->%list_elem_of_singleton. done. }
      intros x Hx. split; [done|].
      rewrite insert_op_perm in Hx. apply elem_of_cons in Hx as [->|Hx].
      * apply elem_of_app. right. by apply list_elem_of_singleton.
      * apply elem_of_app. left. by apply Hq.
    + rewrite insert_op_perm. simpl. rewrite Hperm.
      apply Permutation_cons_append.
    + by apply insert_op_sorted.
    + done.
    + done.
    + rewrite length_app. simpl. lia.
    + done.
    + intros r [Hr| ->%list_elem_of_singleton]%elem_of_app; simpl; [|lia].
      specialize (Hkeys r Hr). lia.
    + intros x Hx. rewrite insert_op_perm in Hx.
      apply elem_of_cons in Hx as [->|Hx]; simpl; [lia|].
      specialize (Htargets x Hx). lia.
Qed.

Lemma rounds_lined_up q :
  ∀ L, lined_up q L →
    let L' := turns (3 * length q) L in
    completedOperations (Promises.this L')
      = completedOperations (Promises.this L) ++ (record_of_operation <$> q.*2)
    ∧ microtasks L' = [] ∧ timers L' = [].
Proof.
  induction q as [|x q IH]; intros L (Hjobs & Htimers & Hnodup & Hchains & Hq).
  - simpl. by rewrite app_nil_r.
  - replace (3 * length (x :: q))%nat with (3 + 3 * length q)%nat by (simpl; lia).
    rewrite turns_add. cbn [turns].
    destruct (Hq x ltac:(by left)) as [Hsettled Hchain].
    rewrite fmap_cons in Hnodup. apply NoDup_cons in Hnodup as [Hx Hnodup].
    assert (filter (λ r, r.1 = target (timer_of x)) (reactions L)
            = [(target (timer_of x), op_name x.2)]) as Hfilter.
    { destruct (filter_unique_key x.1 (reactions L) Hchains) as [Hnone|[name Hone]].
      - exfalso. eapply (filter_nil_not_elem_of _ _ _ Hnone); [|exact Hchain]. done.
      - simpl. rewrite Hone. do 2 f_equal.
        assert ((x.1, op_name x.2) ∈ filter (λ r, r.1 = x.1) (reactions L)) as Hin
          by by apply list_elem_of_filter.
        rewrite Hone in Hin. apply list_elem_of_singleton in Hin. congruence. }
    rewrite fmap_cons in Htimers.
    erewrite timer_round;
      [|exact Hjobs|exact Htimers|exact Hsettled|exact Hfilter].
    match goal with |- context [turns _ ?L1] => destruct (IH L1) as (Hc & Hj & Ht) end.
    { unfold lined_up. simpl. split; [done|]. split; [done|]. split; [done|].
      split; [eapply sublist_NoDup; [done|]; apply fmap_sublist, sublist_filter|].
      intros y Hy. destruct (Hq y ltac:(by right)) as [Hs Hin].
      assert (y.1 ≠ x.1) as Hne.
      { intros Heq. apply Hx. rewrite <- Heq. apply list_elem_of_fmap. by exists y. }
      split; [by rewrite lookup_insert_ne|].
      by apply list_elem_of_filter. }
    split; [|done]. rewrite Hc. simpl. by rewrite <- app_assoc.
Qed.

Lemma registered_tracks (ops : list (TimedOperation T E)) (n : nat) :
  registered ((track <$> ops) ++ replicate n Turn) = op_name <$> ops.
Proof.
  unfold registered. rewrite omap_app.
  assert (omap (λ c : Command T E, match c with
                 | Create name (Throwing _) => None
                 | Create name _ => Some name
                 | Turn => None
                 end) (replicate n Turn) = []) as ->.
  { induction n as [|n IH]; [done|]. simpl. exact IH. }
  rewrite app_nil_r. induction ops as [|o ops IH]; [done|].
  rewrite !fmap_cons. simpl. by f_equal.
Qed.

(** X8. Any number of operations on timers, registered together in any order:
    after three turns of the loop for each of them the loop is idle, the
    pending set is empty, and the completed sequence holds the record of each
    operation once, in the order of the delays. *)
Theorem timed_operations_complete_by_delay (ops : list (TimedOperation T E)) :
  ∃ sorted,
    sorted ≡ₚ ops ∧
    StronglySorted by_delay sorted ∧
    let L := run ((track <$> ops) ++ replicate (3 * length ops) Turn) start in
    idle L = true
    ∧ pendingOperations (Promises.this L) = ∅
    ∧ completedOperations (Promises.this L) = record_of_operation <$> sorted.
Proof.
  destruct (registrations_lined_up ops)
    as (q & Hlined & Hperm & Hsorted & Hcompleted & _).
  exists q.*2. split; [done|]. split; [done|].
  intros L.
  assert (length q = length ops) as Hlen
    by by rewrite <- (length_fmap snd), Hperm.
  assert (L = turns (3 * length q) (run (track <$> ops) start)) as HL.
  { unfold L. by rewrite run_app, run_turns, Hlen. }
  destruct (rounds_lined_up q _ Hlined) as (Hrecords & Hjobs & Htimers).
  rewrite <- HL in Hrecords, Hjobs, Htimers.
  rewrite Hcompleted, app_nil_l in Hrecords.
  split; [unfold idle; by rewrite Hjobs, Htimers|]. split; [|done].
  pose proof (covered_run ((track <$> ops) ++ replicate (3 * length ops) Turn))
    as Hcovered.
  destruct (tracks_run ((track <$> ops) ++ replicate (3 * length ops) Turn))
    as [Hnames _].
  fold L in Hcovered, Hnames.
  apply Permutation_length in Hnames.
  rewrite registered_tracks, length_app in Hnames. unfold completed_names in Hnames.
  rewrite Hrecords, !length_fmap, Hlen in Hnames.
  assert (waiting L = []) as Hnone by (apply length_zero_iff_nil; lia).
  apply set_eq. intros x. rewrite elem_of_empty. split; [|done].
  intros Hx%Hcovered. rewrite Hnone in Hx. by apply elem_of_nil in Hx.
Qed.

Lemma run_two_registrations (name1 name2 : string) (d1 d2 : Z)
    (s1 s2 : Settlement T E) :
  run [Create name1 (Delayed d1 s1); Create name2 (Delayed d2 s2)] start =
    {| this := {| requestId := 0;
                  pendingOperations := {[name2]} ∪ ({[name1]} ∪ ∅);
                  completedOperations := [] |};
       now := 0; fresh := 2%nat; settled := ∅;
       reactions := [(0%nat, name1); (1%nat, name2)];
       microtasks := [];
       timers :=
         insert_timer {| due := 0 + timer_delay d2; target := 1%nat; outcome := s2 |}
           [ {| due := 0 + timer_delay d1; target := 0%nat; outcome := s1 |} ];
       log := [] |}.
Proof. done. Qed.

(** X9. One name registered for two operations: when the first of them
    settles, the name leaves the pending set although the second operation is
    still waited for, so the pending set is empty while the loop is not idle
    and only one of the two records is written; a run of the monitor at that
    moment prints the completion line with a table of one record. *)
Theorem repeated_name_leaves_pending_early
    (name : string) (d1 d2 : Z) (s1 s2 : Settlement T E) :
  timer_delay d1 ≤ timer_delay d2 →
  let L := run [Create name (Delayed d1 s1); Create name (Delayed d2 s2);
                Turn; Turn; Turn] start in
  pendingOperations (Promises.this L) = ∅
  ∧ waiting L = [name]
  ∧ completedOperations (Promises.this L) = [record_of name s1]
  ∧ idle L = false
  ∧ Monitor.monitor (Promises.this L)
    = (Monitor.AllCompleted [record_of name s1], false).
Proof.
  intros Hd L.
  assert (L = turn (turn (turn (run [Create name (Delayed d1 s1);
                                     Create name (Delayed d2 s2)] start))))
    as ->.
  { unfold L.
    change [Create name (Delayed d1 s1); Create name (Delayed d2 s2); Turn; Turn; Turn]
      with ([Create name (Delayed d1 s1); Create name (Delayed d2 s2)]
            ++ replicate 3 (Turn (T:=T) (E:=E))).
    by rewrite run_app, run_turns. }
  rewrite run_two_registrations. cbn [insert_timer due].
  rewrite bool_decide_eq_true_2 by lia.
  lazymatch goal with
  | |- context [turn (turn (turn (Build_Loop ?a ?b ?c ?d ?e ?f ?g ?h)))] =>
      erewrite (timer_round (Build_Loop a b c d e f g h));
        [| reflexivity | reflexivity | by vm_compute | reflexivity ]
  end.
  cbn [Promises.this microtasks timers reactions].
  assert (({[name]} ∪ ({[name]} ∪ ∅)) ∖ {[name]} =@{gset string} ∅) as Hnone.
  { apply set_eq. intros x.
    rewrite !elem_of_difference, !elem_of_union, !elem_of_singleton, elem_of_empty.
    tauto. }
  split; [exact Hnone|]. do 3 (split; [reflexivity|]).
  unfold Monitor.monitor.
  cbn [Promises.this pendingOperations completedOperations
         completedOperations_push pendingOperations_delete outcome].
  rewrite Hnone, size_empty. reflexivity.
Qed.

(** X17. Two operations on timers, registered one after the other: their
    records are written in the order of the delays their timers run with,
    and in the order of registration when these are equal.  A delay below
    1 ms runs as 1 ms, so operations with the delays 1 and 0 complete in the
    order in which they were registered. *)
Theorem two_timed_operations_by_timer_delay
    (name1 name2 : string) (d1 d2 : Z) (s1 s2 : Settlement T E) :
  let L := run [Create name1 (Delayed d1 s1); Create name2 (Delayed d2 s2);
                Turn; Turn; Turn; Turn; Turn; Turn] start in
  idle L = true
  ∧ completedOperations (Promises.this L)
    = (if bool_decide (timer_delay d1 ≤ timer_delay d2)
       then [record_of name1 s1; record_of name2 s2]
       else [record_of name2 s2; record_of name1 s1])
  ∧ (d1 = 1 → d2 = 0 →
     completedOperations (Promises.this L) = [record_of name1 s1; record_of name2 s2]).
Proof.
  intros L.
  assert (L = turn (turn (turn (turn (turn (turn
                (run [Create name1 (Delayed d1 s1);
                      Create name2 (Delayed d2 s2)] start)))))))
    as ->.
  { unfold L.
    change [Create name1 (Delayed d1 s1); Create name2 (Delayed d2 s2);
            Turn; Turn; Turn; Turn; Turn; Turn]
      with ([Create name1 (Delayed d1 s1); Create name2 (Delayed d2 s2)]
            ++ replicate 6 (Turn (T:=T) (E:=E))).
    by rewrite run_app, run_turns. }
  rewrite run_two_registrations. cbn [insert_timer due].
  case_bool_decide as Hd.
  - rewrite (bool_decide_eq_true_2 (0 + timer_delay d1 ≤ 0 + timer_delay d2)) by lia.
    do 2 (lazymatch goal with
          | |- context [turn (turn (turn (Build_Loop ?a ?b ?c ?d ?e ?f ?g ?h)))] =>
              erewrite (timer_round (Build_Loop a b c d e f g h));
                [| reflexivity | reflexivity | by vm_compute | reflexivity ]
          end;
          cbn [Promises.this now fresh settled reactions microtasks timers log
                 outcome target due]).
    split; [done|]. split; [done|]. done.
  - rewrite (bool_decide_eq_false_2 (0 + timer_delay d1 ≤ 0 + timer_delay d2)) by lia.
    do 2 (lazymatch goal with
          | |- context [turn (turn (turn (Build_Loop ?a ?b ?c ?d ?e ?f ?g ?h)))] =>
              erewrite (timer_round (Build_Loop a b c d e f g h));
                [| reflexivity | reflexivity | by vm_compute | reflexivity ]
          end;
          cbn [Promises.this now fresh settled reactions microtasks timers log
                 outcome target due]).
    split; [done|]. split; [done|].
    intros -> ->. exfalso. apply Hd. by vm_compute.
Qed.

End SessionsMore.

Lemma two_timed_operations_by_timer_delay_witness :
  completedOperations
    (Promises.this
       (run [Create "medium" (Delayed 1 (Fulfilled 1%nat));
             Create "fast" (Delayed 0 (Rejected 2%nat));
             Turn; Turn; Turn; Turn; Turn; Turn] (start (T:=nat) (E:=nat))))
  = [record_of "medium" (Fulfilled 1%nat); record_of "fast" (Rejected 2%nat)].
Proof.
  apply (two_timed_operations_by_timer_delay (T:=nat) (E:=nat)
           "medium" "fast" 1 0 (Fulfilled 1%nat) (Rejected 2%nat));
    reflexivity.
Defined.

Lemma repeated_name_leaves_pending_early_witness :
  let L := run [Create "user-fetch" (Delayed 100 (Fulfilled 1%nat));
                Create "user-fetch" (Delayed 150 (Rejected 2%nat));
                Turn; Turn; Turn] (start (T:=nat) (E:=nat)) in
  pendingOperations (Promises.this L) = ∅
  ∧ waiting L = ["user-fetch"]
  ∧ completedOperations (Promises.this L) = [record_of "user-fetch" (Fulfilled 1%nat)]
  ∧ idle L = false
  ∧ Monitor.monitor (Promises.this L)
    = (Monitor.AllCompleted [record_of "user-fetch" (Fulfilled 1%nat)], false).
Proof.
  apply (repeated_name_leaves_pending_early (T:=nat) (E:=nat)
           "user-fetch" 100 150 (Fulfilled 1%nat) (Rejected 2%nat)).
  vm_compute. discriminate.
Defined.

Lemma pending_names_are_waited_for_witness :
  pendingOperations
    (Promises.this
       (run [Create "user-fetch" (Delayed 100 (Fulfilled 1%nat)); Turn; Turn; Turn]
          (start (T:=nat) (E:=nat)))) = ∅.
Proof.
  apply (pending_names_are_waited_for (T:=nat) (E:=nat)
           [Create "user-fetch" (Delayed 100 (Fulfilled 1%nat)); Turn; Turn; Turn]).
  reflexivity.
Defined.

End SessionsFacts.

(** * Properties of the error log *)

Module ErrorLogFacts.
Import ErrorLog.

Lemma logged_snoc (calls : list Call) (c : Call) :
  logged (calls ++ [c])
  = (logError (call_context c) (call_error c) (call_clock c) (logged calls)).2.
Proof. unfold logged. by rewrite foldl_snoc. Qed.

Lemma entries_from_app (i : nat) (calls1 calls2 : list Call) :
  entries_from i (calls1 ++ calls2)
  = entries_from i calls1 ++ entries_from (i + length calls1) calls2.
Proof.
  revert i. induction calls1 as [|c calls1 IH]; intros i.
  - simpl. by rewrite Nat.add_0_r.
  - simpl. rewrite IH. replace (S i + length calls1)%nat with (i + S (length calls1))%nat by lia.
    by destruct (call_error c).
Qed.

Lemma logged_entries (calls : list Call) :
  errorCount (logged calls) = Z.of_nat (length calls)
  ∧ errorLog (logged calls) = entries_from 0 calls.
Proof.
  induction calls as [|c calls [IHcount IHlog]] using rev_ind; [done|].
  rewrite logged_snoc, length_app, entries_from_app. unfold logError. simpl.
  destruct (call_error c) as [v|e]; simpl; rewrite IHcount, IHlog.
  - split; [lia|by rewrite app_nil_r].
  - split; [lia|done].
Qed.

Lemma entries_from_length (i : nat) (calls : list Call) :
  (length (entries_from i calls) + length (List.filter throws calls) = length calls)%nat.
Proof.
  revert i. induction calls as [|c calls IH]; intros i; [done|].
  simpl. unfold throws at 1. specialize (IH (S i)).
  destruct (call_error c); simpl; lia.
Qed.

Lemma entries_from_ids (calls : list Call) :
  ∀ i : nat,
    StronglySorted Z.lt (id <$> entries_from i calls)
    ∧ Forall (λ log, Z.of_nat i < id log ≤ Z.of_nat i + Z.of_nat (length calls))
        (entries_from i calls).
Proof.
  induction calls as [|c calls IH]; intros i; [by split; constructor|].
  destruct (IH (S i)) as [Hsorted Hbounds]. simpl.
  assert (Forall (λ log, Z.of_nat i < id log
                         ≤ Z.of_nat i + Z.of_nat (S (length calls)))
            (entries_from (S i) calls)) as Hbounds'.
  { eapply Forall_impl; [exact Hbounds|]. simpl. intros log Hlog. lia. }
  destruct (call_error c) as [v|e]; [by split|].
  rewrite fmap_cons. split.
  - constructor; [done|]. apply Forall_fmap.
    eapply Forall_impl; [exact Hbounds|]. simpl. intros log Hlog. lia.
  - constructor; [simpl; lia|done].
Qed.

Lemma rows_of_ok (logs : list LogEntry) :
  Forall (λ log, is_Some (message (error log))) logs →
  ∃ rows,
    rows_of logs = inr rows
    ∧ ID <$> rows = id <$> logs
    ∧ Context <$> rows = context <$> logs
    ∧ Type_ <$> rows = (λ log, name (error log)) <$> logs.
Proof.
  induction logs as [|log logs IH]; [by exists []|].
  intros [[text Htext] Hlogs]%Forall_cons.
  destruct (IH Hlogs) as (rows & Hrows & Hids & Hcontexts & Htypes).
  simpl. unfold row_of. rewrite Htext, Hrows.
  eexists. split; [done|]. rewrite !fmap_cons. simpl.
  by rewrite Hids, Hcontexts, Htypes.
Qed.

Lemma rows_of_throws (logs : list LogEntry) :
  Exists (λ log, message (error log) = None) logs →
  rows_of logs = inl (cannot_read "substring" undefined).
Proof.
  induction logs as [|log logs IH]; [by intros ?%Exists_nil|].
  intros Hlogs. simpl. unfold row_of.
  destruct (message (error log)) as [text|] eqn:Htext; [|done].
  apply Exists_cons in Hlogs as [Hlog|Hlogs]; [congruence|].
  by rewrite (IH Hlogs).
Qed.

(** X10. [logError] raises the counter on every call, whether it returns or
    throws, and leaves an entry on every call that returns: after any
    sequence of calls on a new object, [errorCount] is the number of calls,
    the log holds the entries of the calls that were given a value with
    properties, in the order of the calls, and the ids are the numbers of
    these calls, so they increase and lie between 1 and [errorCount].  The
    counter exceeds the length of the log by the number of calls that were
    given [undefined] or [null]. *)
Theorem log_entries_numbered (calls : list Call) :
  let this := logged calls in
  errorCount this = Z.of_nat (length calls)
  ∧ errorLog this = entries_from 0 calls
  ∧ errorCount this
    = Z.of_nat (length (errorLog this)) + Z.of_nat (length (List.filter throws calls))
  ∧ StronglySorted Z.lt (id <$> errorLog this)
  ∧ Forall (λ log, 1 ≤ id log ≤ errorCount this) (errorLog this).
Proof.
  intros this. destruct (logged_entries calls) as [Hcount Hlog]. fold this in Hcount, Hlog.
  rewrite Hlog, Hcount.
  pose proof (entries_from_length 0 calls) as Hlength.
  destruct (entries_from_ids calls 0) as [Hsorted Hbounds].
  split; [done|]. split; [done|]. split; [lia|]. split; [done|].
  eapply Forall_impl; [exact Hbounds|]. simpl. intros log Hlog'. lia.
Qed.

(** X11. [displayErrorStats] after any sequence of calls of [logError]: the
    total it prints is the number of calls.  When every logged value had a
    message, the table follows exactly when the log has an entry, with one
    row for each entry, in the order of the entries and with their ids,
    contexts and names; when some logged value had no message, no table is
    printed and reading [substring] of [undefined] throws. *)
Theorem stats_after_logging (calls : list Call) :
  let this := logged calls in
  let lines :=
    [ console_log (String (Ascii.ascii_of_nat 10) "=== ERROR STATISTICS ===");
      console_log ("Total errors logged: " +:+ show (Z.of_nat (length calls))) ] in
  match decide (Forall (λ log, is_Some (message (error log))) (errorLog this)) with
  | left _ =>
      match errorLog this with
      | [] => displayErrorStats this = (lines, None)
      | _ =>
          ∃ rows,
            displayErrorStats this = (lines ++ [ console_table rows ], None)
            ∧ ID <$> rows = id <$> errorLog this
            ∧ Context <$> rows = context <$> errorLog this
            ∧ Type_ <$> rows = (λ log, name (error log)) <$> errorLog this
      end
  | right _ =>
      displayErrorStats this = (lines, Some (cannot_read "substring" undefined))
  end.
Proof.
  intros this lines. destruct (logged_entries calls) as [Hcount _]. fold this in Hcount.
  unfold displayErrorStats. rewrite Hcount. fold lines.
  destruct (decide _) as [Hall|Hsome].
  - destruct (errorLog this) as [|log logs] eqn:Hlog; [done|].
    rewrite bool_decide_eq_true_2 by (simpl; lia).
    destruct (rows_of_ok _ Hall) as (rows & -> & Hrows). by exists rows.
  - apply not_Forall_Exists in Hsome; [|apply _].
    assert (errorLog this ≠ []) as Hlog by (intros Hnil; rewrite Hnil in Hsome; by apply Exists_nil in Hsome).
    rewrite bool_decide_eq_true_2 by (destruct (errorLog this); [done|simpl; lia]).
    rewrite rows_of_throws; [done|].
    eapply Exists_impl; [exact Hsome|]. simpl. intros log Hnone.
    destruct (message (error log)); [|done]. exfalso. by apply Hnone.
Qed.



End ErrorLogFacts.

(** * Properties of the monitor *)

Module MonitorFacts.
Import Promises Monitor PromisesFacts.

Section MonitorMore.

Context {T E : Type}.

Implicit Types (this : AsyncDebugging T E) (view : nat → AsyncDebugging T E).

Lemma monitor_pending this :
  pendingOperations this ≠ ∅ →
  monitor this = (PendingOperations (pendingOperations this), true).
Proof.
  intros Hne. unfold monitor. rewrite bool_decide_eq_true_2; [done|].
  apply Nat.neq_0_lt_0. intros Hsize. apply Hne.
  by apply leibniz_equiv, size_empty_iff.
Qed.

Lemma monitor_completed this :
  pendingOperations this = ∅ →
  monitor this = (AllCompleted (completedOperations this), false).
Proof.
  intros Hnone. unfold monitor. rewrite Hnone, size_empty.
  by rewrite bool_decide_eq_false_2 by lia.
Qed.

Lemma pending_reports_S view (k n : nat) (t : Z) :
  pending_reports view k (S n) t
  = (t, PendingOperations (pendingOperations (view k)))
    :: pending_reports view (S k) n (t + 50).
Proof.
  unfold pending_reports. cbn [seq fmap list_fmap].
  rewrite Z.mul_0_r, Z.add_0_r, Nat.add_0_r. f_equal.
  rewrite <- fmap_S_seq, <- list_fmap_compose.
  apply list_fmap_ext. intros _ i _. simpl.
  replace (k + S i)%nat with (S (k + i)) by lia.
  f_equal. lia.
Qed.

Lemma polls_pending (n : nat) :
  ∀ fuel view (k : nat) (t : Z),
    (∀ i, (i < n)%nat → pendingOperations (view (k + i)%nat) ≠ ∅) →
    polls (n + fuel) view k t
    = let '(rest, stopped) := polls fuel view (k + n) (t + 50 * Z.of_nat n) in
      (pending_reports view k n t ++ rest, stopped).
Proof.
  induction n as [|n IH]; intros fuel view k t Hpending.
  - simpl. rewrite Nat.add_0_r, Z.add_0_r. by destruct (polls _ _ _ _).
  - cbn [Nat.add polls].
    rewrite monitor_pending
      by (specialize (Hpending 0%nat); rewrite Nat.add_0_r in Hpending;
          apply Hpending; lia).
    rewrite IH.
    + replace (S k + n)%nat with (k + S n)%nat by lia.
      replace (t + 50 + 50 * Z.of_nat n) with (t + 50 * Z.of_nat (S n)) by lia.
      destruct (polls _ _ _ _) as [rest stopped].
      by rewrite pending_reports_S.
    + intros i Hi. replace (S k + i)%nat with (k + S i)%nat by lia.
      apply Hpending. lia.
Qed.

(** X13. The monitor stops at the first run that finds the pending set
    empty: it has printed the pending names every 50 ms until then, prints
    the completion line with the table as that run finds it, and sets no
    further timer. *)
Theorem monitor_stops_at_first_empty_poll view (k fuel : nat) (now : Z) :
  (∀ i, (i < k)%nat → pendingOperations (view i) ≠ ∅) →
  pendingOperations (view k) = ∅ →
  (k < fuel)%nat →
  monitorPendingOperations fuel view now
  = (pending_reports view 0 k (now + 50)
     ++ [(now + 50 * (Z.of_nat k + 1), AllCompleted (completedOperations (view k)))],
     true).
Proof.
  intros Hpending Hnone Hfuel. unfold monitorPendingOperations.
  replace fuel with (k + S (fuel - S k))%nat by lia.
  rewrite polls_pending by done.
  cbn [polls Nat.add]. rewrite monitor_completed by done.
  replace (now + 50 + 50 * Z.of_nat k) with (now + 50 * (Z.of_nat k + 1)) by lia.
  done.
Qed.

(** X14. As long as every run finds a pending name the monitor goes on: it
    never prints the completion line, and after any number of runs its timer
    is set again. *)
Theorem monitor_never_stops_while_pending view (now : Z) :
  (∀ i, pendingOperations (view i) ≠ ∅) →
  ∀ fuel,
    monitorPendingOperations fuel view now
    = (pending_reports view 0 fuel (now + 50), false).
Proof.
  intros Hpending fuel. unfold monitorPendingOperations.
  replace fuel with (fuel + 0)%nat at 1 by lia.
  rewrite polls_pending by (intros; apply Hpending).
  simpl. by rewrite app_nil_r.
Qed.

(** X15. The monitor on a session whose names are distinct: it prints the
    names of the operations still waited for, and it prints the completion
    line only when every registered operation has its record in the table. *)
Theorem monitor_of_session_with_distinct_names (script : list (Command T E)) :
  NoDup (registered script) →
  let L := run script start in
  monitor (Promises.this L)
  = (if bool_decide (waiting L = [])
     then (AllCompleted (completedOperations (Promises.this L)), false)
     else (PendingOperations (list_to_set (waiting L)), true))
  ∧ (waiting L = [] → completed_names L ≡ₚ registered script).
Proof.
  intros Hnodup L. destruct (tracks_run script) as [Hnames Hpending].
  fold L in Hnames, Hpending. specialize (Hpending Hnodup).
  assert (pendingOperations (Promises.this L) = list_to_set (waiting L)) as Hset.
  { apply set_eq. intros x. rewrite elem_of_list_to_set. apply Hpending. }
  split.
  - case_bool_decide as Hwaiting.
    + apply monitor_completed. by rewrite Hset, Hwaiting.
    + rewrite <- Hset. apply monitor_pending. rewrite Hset.
      destruct (waiting L) as [|x l]; [done|].
      intros Hempty. apply (not_elem_of_empty (C:=gset string) x).
      rewrite <- Hempty. apply elem_of_list_to_set. by left.
  - intros Hwaiting. by rewrite Hwaiting in Hnames.
Qed.

End MonitorMore.

Lemma monitor_stops_at_first_empty_poll_witness :
  let busy : AsyncDebugging nat nat :=
    pendingOperations_add "user-fetch" constructor in
  let view := (λ k : nat, if bool_decide (k < 2)%nat then busy else constructor) in
  monitorPendingOperations 5 view 0
  = (pending_reports view 0 2 (0 + 50)
     ++ [(0 + 50 * (Z.of_nat 2 + 1), AllCompleted (completedOperations (view 2%nat)))],
     true).
Proof.
  apply (monitor_stops_at_first_empty_poll (T:=nat) (E:=nat)
           (λ k : nat, if bool_decide (k < 2)%nat
                       then pendingOperations_add "user-fetch" constructor
                       else constructor) 2 5 0).
  - intros i Hi. rewrite bool_decide_eq_true_2 by done. simpl.
    intros Hempty. apply (not_elem_of_empty (C:=gset string) "user-fetch").
    rewrite <- Hempty. apply elem_of_union_l. by apply elem_of_singleton.
  - reflexivity.
  - lia.
Defined.

Lemma monitor_never_stops_while_pending_witness :
  let view := (λ _ : nat, pendingOperations_add "user-fetch"
                            (constructor (T:=nat) (E:=nat))) in
  monitorPendingOperations 4 view 0
  = (pending_reports view 0 4 (0 + 50), false).
Proof.
  apply (λ Hpending,
           monitor_never_stops_while_pending (T:=nat) (E:=nat)
             (λ _ : nat, pendingOperations_add "user-fetch" constructor) 0
             Hpending 4).
  intros _. simpl.
  intros Hempty. apply (not_elem_of_empty (C:=gset string) "user-fetch").
  rewrite <- Hempty. apply elem_of_union_l. by apply elem_of_singleton.
Defined.

Lemma monitor_of_session_with_distinct_names_witness :
  let L := run [Create "user-fetch" (Delayed 100 (Fulfilled 1%nat));
                Create "posts-fetch" (Delayed 50 (Rejected 2%nat));
                Turn; Turn; Turn] (start (T:=nat) (E:=nat)) in
  monitor (Promises.this L)
  = (if bool_decide (waiting L = [])
     then (AllCompleted (completedOperations (Promises.this L)), false)
     else (PendingOperations (list_to_set (waiting L)), true))
  ∧ (waiting L = [] →
     completed_names L
     ≡ₚ registered [Create "user-fetch" (Delayed 100 (Fulfilled 1%nat));
                    Create "posts-fetch" (Delayed 50 (Rejected 2%nat));
                    Turn; Turn; Turn]).
Proof.
  apply (monitor_of_session_with_distinct_names (T:=nat) (E:=nat)
           [Create "user-fetch" (Delayed 100 (Fulfilled 1%nat));
            Create "posts-fetch" (Delayed 50 (Rejected 2%nat));
            Turn; Turn; Turn]).
  simpl. apply NoDup_cons. split.
  - intros Hin. apply list_elem_of_singleton in Hin. discriminate.
  - apply NoDup_singleton.
Defined.

End MonitorFacts.

(** * Properties of the shared counter *)

Module RaceFacts.
Import Race.

Lemma start_tasks_snoc (tasks : list (Z * Z)) (task : Z * Z) :
  start_tasks (tasks ++ [task])
  = let '(w, s) := increment task.1 task.2 (start_tasks tasks).1 in
    (w, (start_tasks tasks).2 ++ [s]).
Proof. unfold start_tasks. by rewrite foldl_snoc. Qed.

Lemma start_tasks_read_initial (tasks : list (Z * Z)) :
  start_tasks tasks
  = ({| sharedResource := 0;
        console := concat ((λ task, [Starting task.1; ReadValue task.1 0]) <$> tasks) |},
     (λ task, {| sleeper_id := task.1; sleeper_delay := task.2; current := 0 |})
       <$> tasks).
Proof.
  induction tasks as [|task tasks IH] using rev_ind; [done|].
  rewrite start_tasks_snoc, IH. unfold increment. simpl.
  rewrite !fmap_app, concat_app. done.
Qed.

Lemma finish_tasks_snoc (order : list Sleeper) (s : Sleeper) (w : World) :
  finish_tasks (order ++ [s]) w = resume s (finish_tasks order w).
Proof. unfold finish_tasks. by rewrite foldl_snoc. Qed.

Lemma finish_tasks_same_read (c : Z) (order : list Sleeper) (w : World) :
  Forall (λ s, current s = c) order →
  finish_tasks order w
  = {| sharedResource := match order with [] => sharedResource w | _ => c + 1 end;
       console := console w ++ ((λ s, WroteValue (sleeper_id s) (c + 1)) <$> order) |}.
Proof.
  induction order as [|s order IH] using rev_ind.
  - intros _. simpl. rewrite app_nil_r. by destruct w.
  - intros [Horder Hs]%Forall_app. rewrite Forall_singleton in Hs.
    rewrite finish_tasks_snoc, (IH Horder). unfold resume. simpl.
    rewrite Hs, fmap_app, <- app_assoc. simpl.
    by destruct order.
Qed.

(** X16. Tasks started together lose all updates but one: each of them reads
    the counter before any of them writes it, so whatever the delays and the
    order in which the timers fire, every task writes 1 and the counter ends
    at 1, not at the number of tasks. *)
Theorem started_together_counts_once (tasks : list (Z * Z)) (order : list Sleeper) :
  tasks ≠ [] →
  order ≡ₚ (start_tasks tasks).2 →
  let w := finish_tasks order (start_tasks tasks).1 in
  sharedResource w = 1
  ∧ console w
    = concat ((λ task, [Starting task.1; ReadValue task.1 0]) <$> tasks)
      ++ ((λ s, WroteValue (sleeper_id s) 1) <$> order).
Proof.
  intros Htasks Horder w. subst w.
  rewrite start_tasks_read_initial in *. cbn [fst snd] in *.
  rewrite (finish_tasks_same_read 0).
  - simpl. split; [|done].
    destruct order as [|s order]; [|done].
    destruct tasks as [|task tasks]; [done|].
    by apply Permutation_nil_cons in Horder.
  - rewrite Horder. apply Forall_fmap, Forall_forall. done.
Qed.

Lemma started_together_counts_once_witness :
  let tasks := [(1, 100); (2, 50); (3, 75)] in
  let order := [ {| sleeper_id := 2; sleeper_delay := 50; current := 0 |};
                 {| sleeper_id := 3; sleeper_delay := 75; current := 0 |};
                 {| sleeper_id := 1; sleeper_delay := 100; current := 0 |} ] in
  let w := finish_tasks order (start_tasks tasks).1 in
  sharedResource w = 1
  ∧ console w
    = concat ((λ task, [Starting task.1; ReadValue task.1 0]) <$> tasks)
      ++ ((λ s, WroteValue (sleeper_id s) 1) <$> order).
Proof.
  apply (started_together_counts_once [(1, 100); (2, 50); (3, 75)]
           [ {| sleeper_id := 2; sleeper_delay := 50; current := 0 |};
             {| sleeper_id := 3; sleeper_delay := 75; current := 0 |};
             {| sleeper_id := 1; sleeper_delay := 100; current := 0 |} ]).
  - discriminate.
  - simpl. solve_Permutation.
Defined.

End RaceFacts.
